(** * ODHF facility directory server: model of [src/index.mjs]

    The development follows the source file top to bottom: the JavaScript
    values and string built-ins the handlers rely on, the lazy CSV loader
    with its module-level cache ([DATA], [COLUMNS]), the column resolver
    [findCol] with the alias table [ALIAS_MAP], the value normaliser
    [nullish], and the three data-dependent request handlers.  Theorems
    come after all definitions. *)

From Stdlib Require Import String Ascii List Bool Arith Lia DecimalString.
From stdpp Require Import gmap strings list.
Import ListNotations.
Local Open Scope string_scope.
Local Open Scope list_scope.
#[local] Set Warnings "-register-all".

(** ** JavaScript strings *)

Module JSString.

(** A JavaScript string is represented by the bytes of its UTF-8
    encoding, so equality and substring search are those of the bytes. *)

(** [s.includes(p)]: [p] occurs in [s] as a contiguous substring. *)
Fixpoint includes (s p : string) : bool :=
  String.prefix p s ||
  match s with
  | EmptyString => false
  | String _ s' => includes s' p
  end.

(** Truthiness of a string value: only the empty string is falsy. *)
Definition truthy (s : string) : bool := negb (String.eqb s "").

(** *** Lower-casing on ASCII text *)

Definition lower_ascii (c : ascii) : ascii :=
  let n := nat_of_ascii c in
  if (65 <=? n)%nat && (n <=? 90)%nat then ascii_of_nat (n + 32) else c.

Fixpoint lower_string (s : string) : string :=
  match s with
  | EmptyString => EmptyString
  | String c s' => String (lower_ascii c) (lower_string s')
  end.

Fixpoint is_ascii (s : string) : bool :=
  match s with
  | EmptyString => true
  | String c s' => (nat_of_ascii c <? 128)%nat && is_ascii s'
  end.

(** *** Trimming UTF-8 text

    [trim] removes from both ends of a string the code points that
    ECMAScript calls WhiteSpace or LineTerminator.  By the bytes of their
    UTF-8 encoding these are: one byte, 09 to 0D and 20; two bytes, C2 A0
    (U+00A0); three bytes, E1 9A 80 (U+1680), E2 80 80 to E2 80 8A
    (U+2000 to U+200A), E2 80 A8 and E2 80 A9 (U+2028 and U+2029),
    E2 80 AF (U+202F), E2 81 9F (U+205F), E3 80 80 (U+3000) and EF BB BF
    (U+FEFF). *)

(** TAB, LF, VT, FF, CR and SPACE. *)
Definition is_space (c : ascii) : bool :=
  let n := nat_of_ascii c in
  ((9 <=? n)%nat && (n <=? 13)%nat) || (n =? 32)%nat.

Definition white2 (a b : ascii) : bool :=
  (nat_of_ascii a =? 194)%nat && (nat_of_ascii b =? 160)%nat.

Definition white3 (a b c : ascii) : bool :=
  let x := nat_of_ascii a in
  let y := nat_of_ascii b in
  let z := nat_of_ascii c in
  ((x =? 225) && (y =? 154) && (z =? 128))%nat
  || ((x =? 226) && (y =? 128)
      && (((128 <=? z) && (z <=? 138)) || (z =? 168) || (z =? 169)
          || (z =? 175)))%nat
  || ((x =? 226) && (y =? 129) && (z =? 159))%nat
  || ((x =? 227) && (y =? 128) && (z =? 128))%nat
  || ((x =? 239) && (y =? 187) && (z =? 191))%nat.

(** The same two tables read from the end of the text. *)
Definition back2 (a b : ascii) : bool := white2 b a.
Definition back3 (a b c : ascii) : bool := white3 c b a.

Section Strip.
Variable one : ascii -> bool.
Variable two : ascii -> ascii -> bool.
Variable three : ascii -> ascii -> ascii -> bool.

(** The bytes left once every leading white-space code point is removed. *)
Fixpoint strip (l : list ascii) : list ascii :=
  match l with
  | [] => []
  | a :: l1 =>
      if one a then strip l1
      else match l1 with
           | [] => l
           | b :: l2 =>
               if two a b then strip l2
               else match l2 with
                    | [] => l
                    | c :: l3 => if three a b c then strip l3 else l
                    end
           end
  end.

(** Whether the bytes start with a white-space code point. *)
Definition starts_white (l : list ascii) : bool :=
  match l with
  | [] => false
  | a :: l1 =>
      one a
      || match l1 with
         | [] => false
         | b :: l2 =>
             two a b
             || match l2 with
                | [] => false
                | c :: _ => three a b c
                end
         end
  end.

(** A sequence of white-space code points and nothing else. *)
Inductive blank : list ascii -> Prop :=
| blank_nil : blank []
| blank_one a l : one a = true -> blank l -> blank (a :: l)
| blank_two a b l : two a b = true -> blank l -> blank (a :: b :: l)
| blank_three a b c l :
    three a b c = true -> blank l -> blank (a :: b :: c :: l).

End Strip.

(** [s.trimStart()], [s.trimEnd()] and [s.trim()]. *)
Definition trimStart (s : string) : string :=
  string_of_list_ascii (strip is_space white2 white3 (list_ascii_of_string s)).

Definition trimEnd (s : string) : string :=
  string_of_list_ascii
    (List.rev (strip is_space back2 back3 (List.rev (list_ascii_of_string s)))).

Definition js_trim (s : string) : string := trimEnd (trimStart s).

(** Vocabulary for what trimming does: a text of white space only, a
    text that starts with a white-space code point, one that ends with
    one. *)
Definition white_space (s : string) : Prop :=
  blank is_space white2 white3 (list_ascii_of_string s).

Definition starts_with_white (s : string) : bool :=
  starts_white is_space white2 white3 (list_ascii_of_string s).

Definition ends_with_white (s : string) : bool :=
  starts_white is_space back2 back3 (List.rev (list_ascii_of_string s)).

(** *** The built-ins [toLowerCase] and [trim]

    The Unicode table of [toLowerCase] is not reproduced.  Every
    definition below is parametric in the two functions, of which three
    facts are used throughout: on text that is all ASCII, lower-casing is
    the ASCII one; only the empty string lower-cases to the empty string;
    trimming the empty string gives it back.  Where a statement is about
    what trimming removes, it says that [trim] is [js_trim]. *)
Class Builtins := {
  toLowerCase : string -> string;
  trim : string -> string;
  toLowerCase_ascii : forall s, is_ascii s = true -> toLowerCase s = lower_string s;
  toLowerCase_nonempty : forall s, toLowerCase s = "" -> s = "";
  trim_empty : trim "" = ""
}.

(** The instance that runs the model: ASCII lower-casing, and trimming
    as above. *)
#[export] Instance ascii_builtins : Builtins.
Proof.
  refine {| toLowerCase := lower_string;
            trim := js_trim;
            toLowerCase_ascii := fun s _ => eq_refl;
            toLowerCase_nonempty := _;
            trim_empty := eq_refl |}.
  intros [|c s]; [reflexivity | discriminate].
Defined.

End JSString.
Import JSString.

(** ** Column resolution (source lines 47-73) *)

Section Resolver.
Context `{Builtins}.

(** [new Map(cols.map((c) => [c.toLowerCase(), c]))]: entries are set in
    column order, so a later column replaces an earlier one that has the
    same lower-case form. *)
Definition lowerMap (cols : list string) : gmap string string :=
  fold_left (fun m c => <[toLowerCase c := c]> m) cols ∅.

(** The [for (const cand of candidates)] loop of [findCol]. *)
Fixpoint findCol_loop (cols : list string) (lower : gmap string string)
    (candidates : list string) : option string :=
  match candidates with
  | [] => None
  | cand :: rest =>
      if bool_decide (cand ∈ cols) then Some cand
      else match lower !! toLowerCase cand with
           | Some m => if truthy m then Some m else findCol_loop cols lower rest
           | None => findCol_loop cols lower rest
           end
  end.

(** [findCol(cols, candidates)]; [None] stands for the returned [null]. *)
Definition findCol (cols candidates : list string) : option string :=
  findCol_loop cols (lowerMap cols) candidates.

(** The resolver as the specification words it: one pass for an exact
    match over the whole alias set, and only then a pass for a
    case-insensitive match, each returning the alias. *)
Definition resolveColumn_spec (cols aliases : list string) : option string :=
  match List.find (fun a => bool_decide (a ∈ cols)) aliases with
  | Some a => Some a
  | None =>
      List.find (fun a => bool_decide (toLowerCase a ∈ toLowerCase <$> cols)) aliases
  end.

End Resolver.

(** [ALIAS_MAP]: a [Set] iterates in insertion order, and neither literal
    list repeats an element. *)
Module ALIAS_MAP.
Definition province : list string :=
  [ "province"; "Province"; "Province or Territory"; "Province/Territory";
    "prov"; "province_or_territory" ].
Definition odhf_facility_type : list string :=
  [ "odhf_facility_type"; "ODHF Facility Type"; "Facility Type";
    "facility_type"; "odhf facility type" ].
End ALIAS_MAP.

(** ** JavaScript values *)

(** The values that occur in query parameters, row cells and JSON bodies. *)
Inductive JSValue : Type :=
| JUndefined
| JNull
| JString (s : string)
| JArray (items : list JSValue)
| JObject (fields : list (string * JSValue)).

(** Truthiness as tested by [!v] and [v || w]. *)
Definition truthyV (v : JSValue) : bool :=
  match v with
  | JUndefined | JNull => false
  | JString s => truthy s
  | JArray _ | JObject _ => true
  end.

(** [v || ""] *)
Definition or_empty (v : JSValue) : JSValue :=
  if truthyV v then v else JString "".

(** The text of a value as [Array.prototype.join] takes it for an
    element: the empty string for [null] and [undefined], the string
    itself, the comma-joined elements of an array, and [[object Object]]
    for an object (an object that comes from the query string is taken to
    have no member of its own named [toString]). *)
Fixpoint text_of (v : JSValue) : string :=
  match v with
  | JUndefined | JNull => ""
  | JString s => s
  | JArray items => String.concat "," (List.map text_of items)
  | JObject _ => "[object Object]"
  end.

(** [nullish(v)] (source lines 173-178). *)
Definition nullish (v : JSValue) : JSValue :=
  match v with
  | JUndefined => JNull
  | JString s =>
      if String.eqb s "" then JNull
      else if String.eqb s "NaN" || String.eqb s "nan" then JNull
      else v
  | _ => v
  end.

(** ** Rows *)

(** A record produced by the CSV parser with [columns: true]: an object
    whose own keys are the header names, in header order, and whose values
    are the cell texts. *)
Definition Row : Type := list (string * string).

(** [Object.keys(r)] *)
Definition Object_keys (r : Row) : list string := List.map fst r.

Fixpoint Row_lookup (r : Row) (c : string) : option string :=
  match r with
  | [] => None
  | (k, v) :: r' => if String.eqb k c then Some v else Row_lookup r' c
  end.

(** [r[c]] for an own key of the row: the cell, or [undefined] when the
    key is missing. *)
Definition get (r : Row) (c : string) : JSValue :=
  match Row_lookup r c with
  | Some v => JString v
  | None => JUndefined
  end.

(** [obj[c] = v] on an object under construction: an existing key keeps
    its position and takes the new value, a new key is appended (keys that
    are array indices, which JavaScript lists first, are not header names
    of interest here). *)
Fixpoint Object_set (obj : list (string * JSValue)) (c : string) (v : JSValue)
    : list (string * JSValue) :=
  match obj with
  | [] => [(c, v)]
  | (k, w) :: obj' =>
      if String.eqb k c then (k, v) :: obj' else (k, w) :: Object_set obj' c v
  end.

(** ** Exceptions and responses *)

Record Exn : Type := { exn_name : string; exn_message : string }.

Definition TypeError (message : string) : Exn :=
  {| exn_name := "TypeError"; exn_message := message |}.

(** [v.toString()]: reading the method off [undefined] or [null] throws;
    on every other value the call returns the text of the value. *)
Definition toString (v : JSValue) : Exn + string :=
  match v with
  | JUndefined =>
      inl (TypeError "Cannot read properties of undefined (reading 'toString')")
  | JNull =>
      inl (TypeError "Cannot read properties of null (reading 'toString')")
  | _ => inr (text_of v)
  end.

(** Sequencing of steps that may throw, outside the module state. *)
Definition and_then {A B} (x : Exn + A) (k : A -> Exn + B) : Exn + B :=
  match x with
  | inl e => inl e
  | inr a => k a
  end.

(** [l.filter(cb)]: the callback is called on the elements from left to
    right, and a throw of the callback ends the call. *)
Fixpoint Array_filter {A} (cb : A -> Exn + bool) (l : list A) : Exn + list A :=
  match l with
  | [] => inr []
  | x :: l' =>
      and_then (cb x) (fun keep_x =>
      and_then (Array_filter cb l') (fun kept =>
      inr (if keep_x then x :: kept else kept)))
  end.

(** [e?.message || String(e)]: an error with an empty message prints as
    its name. *)
Definition errorText (e : Exn) : string :=
  if truthy (exn_message e) then exn_message e else exn_name e.

Inductive Body : Type :=
| Text (s : string)
| Json (v : JSValue).

Record Response : Type := { status : nat; body : Body }.

(** Decimal rendering of a length inside a template literal. *)
Definition decimal (n : nat) : string :=
  NilZero.string_of_uint (Nat.to_uint n).

(** ** Module state and the lazy loader (source lines 25-44) *)

(** [DATA] and [COLUMNS] are the two module-level variables; [None] is
    their initial [null].  The three counters are not in the source: they
    count the calls to [readFile], the calls to [parse] and the assignments
    to [DATA]. *)
Record World : Type := {
  DATA : option (list Row);
  COLUMNS : option (list string);
  reads : nat;
  parses : nat;
  loads : nat
}.

Definition initial : World :=
  {| DATA := None; COLUMNS := None; reads := 0; parses := 0; loads := 0 |}.

(** What [readFile(CSV_FILE)] yields at the time of a call: a rejection or
    the file's text. *)
Definition FileRead : Type := (Exn + string)%type.

(** A computation over the module state that may throw. *)
Definition Eff (A : Type) : Type := World -> (Exn + A) * World.

Definition ret {A} (a : A) : Eff A := fun w => (inr a, w).
Definition bind {A B} (m : Eff A) (k : A -> Eff B) : Eff B :=
  fun w => match m w with
           | (inl e, w') => (inl e, w')
           | (inr a, w') => k a w'
           end.
(** [try { m } catch (e) { h(e) }] *)
Definition try_catch {A} (m : Eff A) (h : Exn -> A) : World -> A * World :=
  fun w => match m w with
           | (inl e, w') => (h e, w')
           | (inr a, w') => (a, w')
           end.

Notation "'let*' x ':=' m 'in' k" := (bind m (fun x => k))
  (at level 10, x name, m at level 100, k at level 200).

(** ** The server *)

Section Server.
Context `{Builtins}.

(** [CSV_FILE = path.join(__dirname, "odhf_v1.1.csv")]: fixed once the
    module is loaded. *)
Variable CSV_FILE : string.

(** [parse(text, { columns: true, skip_empty_lines: true, bom: true })]
    of the CSV library: the records, or a thrown error. *)
Variable parse : string -> Exn + list Row.

(** Reading and assigning the two module variables. *)
Definition read_DATA : Eff (option (list Row)) := fun w => (inr (DATA w), w).
Definition read_COLUMNS : Eff (option (list string)) :=
  fun w => (inr (COLUMNS w), w).
Definition set_DATA (records : list Row) : Eff unit :=
  fun w => (inr tt, {| DATA := Some records; COLUMNS := COLUMNS w;
                       reads := reads w; parses := parses w;
                       loads := S (loads w) |}).
Definition set_COLUMNS (cols : list string) : Eff unit :=
  fun w => (inr tt, {| DATA := DATA w; COLUMNS := Some cols;
                       reads := reads w; parses := parses w;
                       loads := loads w |}).

(** [parse(text, ...)], counted. *)
Definition parse_csv (text : string) : Eff (list Row) :=
  fun w => (parse text, {| DATA := DATA w; COLUMNS := COLUMNS w;
                           reads := reads w; parses := S (parses w);
                           loads := loads w |}).

(** [loadCSVOnce()] runs in two parts, before and after its [await].

    The first part is the guard [if (DATA) return] and the call of
    [readFile(CSV_FILE)]; the flag tells whether the call is now suspended
    at the [await].  An array is truthy whatever its length, so the guard
    also returns once an empty record list has been stored. *)
Definition loadCSVOnce_begin (w : World) : bool * World :=
  match DATA w with
  | Some _ => (false, w)
  | None => (true, {| DATA := DATA w; COLUMNS := COLUMNS w;
                      reads := S (reads w); parses := parses w;
                      loads := loads w |})
  end.

(** The second part runs when the read has settled, with the rejection
    thrown or with the text [raw.toString("utf8")]: parse, then assign
    [DATA] and [COLUMNS].  It does not test [DATA] again. *)
Definition loadCSVOnce_resume (file : FileRead) : Eff unit :=
  fun w =>
    match file with
    | inl e => (inl e, w)
    | inr text =>
        (let* records := parse_csv text in
         let* _ := set_DATA records in
         set_COLUMNS (match records with
                      | r0 :: _ => Object_keys r0
                      | [] => []
                      end)) w
    end.

(** A call of [loadCSVOnce()] during which no other request is served:
    its second part follows its first at once, on the read result [file].
    Calls that overlap are composed from the two parts by [step] below. *)
Definition loadCSVOnce (file : FileRead) : Eff unit :=
  fun w =>
    let (suspended, w1) := loadCSVOnce_begin w in
    if suspended then loadCSVOnce_resume file w1 else (inr tt, w1).

Definition error_body (msg : string) : Body :=
  Json (JObject [("error", JString msg)]).

Definition csv_missing : Response :=
  {| status := 400;
     body := error_body ("CSV not found or empty at " ++ CSV_FILE) |}.

Definition strings (l : list string) : JSValue := JArray (List.map JString l).

(** Each handler is [try { await loadCSVOnce(); rest } catch (e) { ... }]:
    its rest and its catch block are given first. *)

(** *** [GET /] (source lines 76-88) *)
Definition health_rest : Eff Response :=
  let* data := read_DATA in
  ret {| status := 200;
         body := Text ("ODHF MCP Server (Node) is running! csv_found=true rows="
                       ++ decimal (match data with
                                   | Some rows => length rows
                                   | None => 0
                                   end)) |}.

Definition health_catch (e : Exn) : Response :=
  {| status := 500; body := Text ("Startup error: " ++ errorText e) |}.

Definition health (file : FileRead) : World -> Response * World :=
  try_catch (let* _ := loadCSVOnce file in health_rest) health_catch.

(** The catch block of the two JSON endpoints. *)
Definition json_catch (e : Exn) : Response :=
  {| status := 500; body := error_body (errorText e) |}.

(** *** [GET /list_fields] (source lines 91-103) *)
Definition list_fields_rest : Eff Response :=
  let* columns := read_COLUMNS in
  match columns with
  | None => ret csv_missing
  | Some cols =>
      ret {| status := 200;
             body := Json (JObject [("columns", strings cols)]) |}
  end.

Definition list_fields (file : FileRead) : World -> Response * World :=
  try_catch (let* _ := loadCSVOnce file in list_fields_rest) json_catch.

(** *** [GET /search_facilities] (source lines 106-171) *)

(** The two query parameters as the query-string parser delivers them;
    [JUndefined] when the parameter is not given. *)
Record Query : Type := { q_province : JSValue; q_facility_type : JSValue }.

(** [(v || "").toString().trim()] *)
Definition query_param (v : JSValue) : Exn + string :=
  and_then (toString (or_empty v)) (fun s => inr (trim s)).

(** [(v || "").toString().toLowerCase().includes(p)] for a cell [v] *)
Definition value_callback (v : JSValue) (p : string) : Exn + bool :=
  and_then (toString (or_empty v)) (fun s => inr (includes (toLowerCase s) p)).

(** The filter callback [(r) => (r[col] || "")...includes(p)]. *)
Definition filter_callback (col p : string) (r : Row) : Exn + bool :=
  value_callback (get r col) p.

(** One [if (value) { rows = rows.filter(...) }] block. *)
Definition filter_block (col value : string) (rows : list Row)
    : Exn + list Row :=
  if truthy value
  then Array_filter (filter_callback col (toLowerCase value)) rows
  else inr rows.

(** What the four steps above compute when nothing is thrown (that
    nothing is thrown is [search_body_returns] below): the trimmed text of
    a parameter, the test of a cell, the rows one block keeps. *)
Definition param (v : JSValue) : string := trim (text_of (or_empty v)).

Definition value_includes (v : JSValue) (p : string) : bool :=
  includes (toLowerCase (text_of (or_empty v))) p.

Definition cell_includes (col p : string) (r : Row) : bool :=
  value_includes (get r col) p.

Definition filter_by (col value : string) (rows : list Row) : list Row :=
  if truthy value
  then List.filter (cell_includes col (toLowerCase value)) rows
  else rows.

Definition no_results : Response :=
  {| status := 200;
     body := Json (JObject [("message",
       JString "No results. Try another province (e.g., 'QC'/'Quebec') or facility_type.")]) |}.

Definition columns_missing (cols : list string) : Response :=
  {| status := 400;
     body := Json (JObject
       [("error", JString "Expected columns not found.");
        ("have", strings cols);
        ("need_any_of",
          JObject [("province", strings ALIAS_MAP.province);
                   ("odhf_facility_type", strings ALIAS_MAP.odhf_facility_type)])]) |}.

(** The seven names before [.filter((c) => COLUMNS.includes(c))]. *)
Definition priority (colProvince colType : string) : list string :=
  ["Facility Name"; "City"; colProvince; colType;
   "Postal Code"; "Latitude"; "Longitude"].

Definition preferred (cols : list string) (colProvince colType : string)
    : list string :=
  List.filter (fun c => bool_decide (c ∈ cols)) (priority colProvince colType).

(** [for (const c of names) obj[c] = nullish(r[c])], from [obj]. *)
Definition assign_all (names : list string) (r : Row)
    (obj : list (string * JSValue)) : list (string * JSValue) :=
  fold_left (fun o c => Object_set o c (nullish (get r c))) names obj.

(** The callback of [rows.slice(0, 25).map(...)]. *)
Definition clean (pref cols : list string) (r : Row) : JSValue :=
  JObject (match pref with
           | _ :: _ => assign_all pref r []
           | [] => assign_all cols r []
           end).

(** What is answered from the filtered rows (source lines 140-167). *)
Definition respond (cols : list string) (colProvince colType : string)
    (rows : list Row) : Response :=
  match rows with
  | [] => no_results
  | _ :: _ =>
      let pref := preferred cols colProvince colType in
      {| status := 200;
         body := Json (JArray (List.map (clean pref cols) (firstn 25 rows))) |}
  end.

(** The handler body once the dataset and both columns are at hand
    (source lines 127-167). *)
Definition search_body (rows : list Row) (cols : list string)
    (colProvince colType : string) (q : Query) : Exn + Response :=
  and_then (query_param (q_province q)) (fun province =>
  and_then (query_param (q_facility_type q)) (fun facilityType =>
  and_then (filter_block colProvince province rows) (fun rows =>
  and_then (filter_block colType facilityType rows) (fun rows =>
  inr (respond cols colProvince colType rows))))).

(** The response [search_body] returns when nothing is thrown. *)
Definition search_rows (rows : list Row) (cols : list string)
    (colProvince colType : string) (q : Query) : Response :=
  let province := param (q_province q) in
  let facilityType := param (q_facility_type q) in
  let rows := filter_by colProvince province rows in
  let rows := filter_by colType facilityType rows in
  respond cols colProvince colType rows.

(** A step that may throw, as a computation over the module state. *)
Definition lift {A} (x : Exn + A) : Eff A := fun w => (x, w).

(** [!col] for a [findCol] result: [null] and the empty string are falsy. *)
Definition resolved (col : option string) : option string :=
  match col with
  | Some c => if truthy c then Some c else None
  | None => None
  end.

Definition search_facilities_rest (q : Query) : Eff Response :=
  let* data := read_DATA in
  let* columns := read_COLUMNS in
  match data, columns with
  | Some rows, Some cols =>
      match resolved (findCol cols ALIAS_MAP.province),
            resolved (findCol cols ALIAS_MAP.odhf_facility_type) with
      | Some colProvince, Some colType =>
          lift (search_body rows cols colProvince colType q)
      | _, _ => ret (columns_missing cols)
      end
  | _, _ => ret csv_missing
  end.

Definition search_facilities (file : FileRead) (q : Query)
    : World -> Response * World :=
  try_catch (let* _ := loadCSVOnce file in search_facilities_rest q)
    json_catch.

(** *** Vocabulary of the statements below *)

(** The rows a pair of trimmed filter values lets through: a non-empty
    value demands that the lower-cased cell text contains the lower-cased
    value, an empty one demands nothing. *)
Definition passes (col value : string) (r : Row) : bool :=
  negb (truthy value)
  || includes (toLowerCase (text_of (or_empty (get r col)))) (toLowerCase value).

Definition matching (colProvince colType province facilityType : string)
    (rows : list Row) : list Row :=
  List.filter (fun r => passes colProvince province r
                        && passes colType facilityType r) rows.

(** The key sequence of an emitted object. *)
Definition field_names (v : JSValue) : list string :=
  match v with
  | JObject fields => fst <$> fields
  | _ => []
  end.

(** [DATA] and [COLUMNS] are both still [null], or both assigned and
    [DATA] assigned once. *)
Definition consistent (w : World) : Prop :=
  match DATA w, COLUMNS w with
  | None, None => loads w = 0
  | Some _, Some _ => loads w = 1
  | _, _ => False
  end.

(** The field written by [obj[c] = nullish(r[c])]. *)
Definition field (r : Row) (c : string) : string * JSValue :=
  (c, nullish (get r c)).

(** A list without its repetitions, each element at its first position. *)
Definition first_occurrences (l : list string) : list string :=
  reverse (remove_dups (reverse l)).

(** *** Requests to the data-dependent endpoints *)

Inductive Request : Type :=
| GetRoot
| GetListFields
| GetSearchFacilities (q : Query).

Definition handle (file : FileRead) (req : Request)
    : World -> Response * World :=
  match req with
  | GetRoot => health file
  | GetListFields => list_fields file
  | GetSearchFacilities q => search_facilities file q
  end.

(** A sequence of requests that do not overlap: each is served to its
    end, on what its read of the file gives, before the next one arrives.
    Requests that overlap are described by [play] below. *)
Fixpoint serve (reqs : list (FileRead * Request)) (w : World)
    : list Response * World :=
  match reqs with
  | [] => ([], w)
  | (file, req) :: rest =>
      let (resp, w') := handle file req w in
      let (resps, w'') := serve rest w' in
      (resp :: resps, w'')
  end.

(** *** Requests that overlap *)

(** The code of a handler after [await loadCSVOnce()], and its catch
    block. *)
Definition after_load (req : Request) : Eff Response :=
  match req with
  | GetRoot => health_rest
  | GetListFields => list_fields_rest
  | GetSearchFacilities q => search_facilities_rest q
  end.

Definition on_error (req : Request) : Exn -> Response :=
  match req with
  | GetRoot => health_catch
  | GetListFields | GetSearchFacilities _ => json_catch
  end.

(** The server between two turns of the event loop: the module state, the
    requests suspended at the [await] of [loadCSVOnce], in order of
    arrival, and the responses sent so far. *)
Record Server : Type := {
  world : World;
  waiting : list Request;
  sent : list Response
}.

Definition boot : Server := {| world := initial; waiting := []; sent := [] |}.

(** A turn of the event loop: a request arrives, or the read of the
    [i]-th suspended request settles with [file]. *)
Inductive Step : Type :=
| Arrive (req : Request)
| Settle (i : nat) (file : FileRead).

(** The handler runs up to its [await]: past it, to the response, when
    [loadCSVOnce] returns at its guard; otherwise it is suspended there. *)
Definition arrive (req : Request) (s : Server) : Server :=
  let (suspended, w1) := loadCSVOnce_begin (world s) in
  if suspended
  then {| world := w1; waiting := waiting s ++ [req]; sent := sent s |}
  else let (resp, w2) := try_catch (after_load req) (on_error req) w1 in
       {| world := w2; waiting := waiting s; sent := sent s ++ [resp] |}.

(** The suspended handler runs on, from the second part of
    [loadCSVOnce] to its response; nothing else suspends it. *)
Definition settle (i : nat) (file : FileRead) (s : Server) : Server :=
  match waiting s !! i with
  | None => s
  | Some req =>
      let (resp, w2) :=
        try_catch (let* _ := loadCSVOnce_resume file in after_load req)
          (on_error req) (world s) in
      {| world := w2; waiting := delete i (waiting s);
         sent := sent s ++ [resp] |}
  end.

Definition step (s : Server) (st : Step) : Server :=
  match st with
  | Arrive req => arrive req s
  | Settle i file => settle i file s
  end.

Definition play (steps : list Step) (s : Server) : Server :=
  fold_left step steps s.

(** The turns of requests that do not overlap. *)
Definition one_by_one (reqs : list (FileRead * Request)) : list Step :=
  flat_map (fun fr => [Arrive (snd fr); Settle 0 (fst fr)]) reqs.

(** A turn that cannot store anything but [records]: an arrival, a read
    that is rejected, a text the parser throws on, or a text that parses
    to [records]. *)
Definition settles_to (records : list Row) (st : Step) : Prop :=
  match st with
  | Arrive _ => True
  | Settle _ (inl _) => True
  | Settle _ (inr text) =>
      match parse text with
      | inl _ => True
      | inr records' => records' = records
      end
  end.

(** What holds of the server after any turns: [DATA] and [COLUMNS] are
    assigned together, the columns are the keys of the first stored
    record, and every assignment follows a parse, every parse and every
    suspended request a read. *)
Definition coherent (s : Server) : Prop :=
  match DATA (world s) with
  | None => COLUMNS (world s) = None /\ loads (world s) = 0
  | Some records =>
      COLUMNS (world s)
      = Some (match records with r0 :: _ => Object_keys r0 | [] => [] end)
      /\ 1 <= loads (world s)
  end
  /\ loads (world s) <= parses (world s)
  /\ parses (world s) + length (waiting s) <= reads (world s).

End Server.

(** ** Load outcomes *)

(** Whether a call of [loadCSVOnce] that finds no stored dataset throws:
    the read is rejected, or the parser throws on the text read. *)
Definition load_fails (parse : string -> Exn + list Row) (file : FileRead)
    : bool :=
  match file with
  | inl _ => true
  | inr text => match parse text with
                | inl _ => true
                | inr _ => false
                end
  end.

(** [COLUMNS] as [loadCSVOnce] derives it from the records. *)
Definition columns_of (records : list Row) : list string :=
  match records with
  | r0 :: _ => Object_keys r0
  | [] => []
  end.

(** No two actual columns differ only by case. *)
Definition case_unique `{Builtins} (cols : list string) : Prop :=
  forall c1 c2, c1 ∈ cols -> c2 ∈ cols ->
                toLowerCase c1 = toLowerCase c2 -> c1 = c2.

(** ** [JSON.stringify] *)

Definition quote_mark : ascii := ascii_of_nat 34.
Definition backslash : ascii := ascii_of_nat 92.

Definition hex_digit (n : nat) : ascii :=
  ascii_of_nat (if (n <? 10)%nat then 48 + n else 87 + n).

(** The escape of one character inside a JSON string: the quotation mark,
    the backslash and the control characters are escaped, everything else
    is copied. *)
Definition escape (c : ascii) : string :=
  let n := nat_of_ascii c in
  if (n =? 34)%nat then String backslash (String quote_mark "")
  else if (n =? 92)%nat then String backslash (String backslash "")
  else if (n =? 8)%nat then String backslash "b"
  else if (n =? 9)%nat then String backslash "t"
  else if (n =? 10)%nat then String backslash "n"
  else if (n =? 12)%nat then String backslash "f"
  else if (n =? 13)%nat then String backslash "r"
  else if (n <? 32)%nat
       then String backslash
              ("u00" ++ String (hex_digit (n / 16))
                          (String (hex_digit (n mod 16)) ""))%string
  else String c "".

Fixpoint quote_body (s : string) : string :=
  match s with
  | EmptyString => EmptyString
  | String c s' => (escape c ++ quote_body s')%string
  end.

Definition quote (s : string) : string :=
  String quote_mark (quote_body s ++ String quote_mark "")%string.

(** [JSON.stringify(v)]: [None] is the [undefined] returned for
    [undefined]; an [undefined] array element is written [null], an
    [undefined] member is left out. *)
Fixpoint stringify (v : JSValue) : option string :=
  match v with
  | JUndefined => None
  | JNull => Some "null"
  | JString s => Some (quote s)
  | JArray items =>
      Some ("[" ++ String.concat ","
                     (List.map (fun x => match stringify x with
                                         | Some j => j
                                         | None => "null"
                                         end) items)
                ++ "]")%string
  | JObject fields =>
      Some ("{" ++ String.concat ","
                     ((fix members (fs : list (string * JSValue)) : list string :=
                         match fs with
                         | [] => []
                         | (k, x) :: fs' =>
                             match stringify x with
                             | Some j => (quote k ++ ":" ++ j)%string :: members fs'
                             | None => members fs'
                             end
                         end) fields)
                ++ "}")%string
  end.

(** A value interpolated in a template literal. *)
Definition interpolate (j : option string) : string :=
  match j with
  | Some text => text
  | None => "undefined"
  end.

(** No line feed and no carriage return in the text. *)
Fixpoint single_line (s : string) : bool :=
  match s with
  | EmptyString => true
  | String c s' =>
      negb ((nat_of_ascii c =? 10)%nat || (nat_of_ascii c =? 13)%nat)
      && single_line s'
  end.

(** ** Tool discovery over server-sent events (source lines 180-241) *)

Definition TOOLS_MANIFEST : JSValue :=
  JArray
    [ JObject
        [("name", JString "list_fields");
         ("description", JString "List dataset columns");
         ("input_schema",
           JObject [("type", JString "object"); ("properties", JObject [])])];
      JObject
        [("name", JString "search_facilities");
         ("description",
           JString "Search facilities by province and/or ODHF facility type");
         ("input_schema",
           JObject
             [("type", JString "object");
              ("properties",
                JObject
                  [("province", JObject [("type", JString "string")]);
                   ("facility_type", JObject [("type", JString "string")])])])] ].

(** The response of a streaming endpoint, as far as the handlers act on
    it: the headers set, the chunks written in order, whether [res.end()]
    has been called, and the two timers ([keep] is the interval of [/sse],
    [flush] the timeout of [/sse_once]). *)
Record Stream : Type := {
  headers : list (string * JSValue);
  chunks : list string;
  writableEnded : bool;
  keep : bool;
  flush : bool
}.

Definition fresh : Stream :=
  {| headers := []; chunks := []; writableEnded := false;
     keep := false; flush := false |}.

(** [res.set({...})] of [sseHeaders]. *)
Definition sseHeaders (res : Stream) : Stream :=
  {| headers :=
       fold_left (fun h kv => Object_set h (fst kv) (snd kv))
         [("Cache-Control", JString "no-cache");
          ("Connection", JString "keep-alive");
          ("X-Accel-Buffering", JString "no");
          ("Access-Control-Allow-Origin", JString "*");
          ("Content-Type", JString "text/event-stream; charset=utf-8")]
         (headers res);
     chunks := chunks res; writableEnded := writableEnded res;
     keep := keep res; flush := flush res |}.

Definition LF : string := String (ascii_of_nat 10) "".

(** [res.write(s)] *)
Definition write (s : string) (res : Stream) : Stream :=
  {| headers := headers res; chunks := chunks res ++ [s];
     writableEnded := writableEnded res; keep := keep res;
     flush := flush res |}.

(** The two chunks of one event. *)
Definition event_chunks (event : string) (dataObj : JSValue) : list string :=
  [("event: " ++ event ++ LF)%string;
   ("data: " ++ interpolate (stringify dataObj) ++ LF ++ LF)%string].

(** [sseWrite(res, event, dataObj)] *)
Definition sseWrite (event : string) (dataObj : JSValue) (res : Stream)
    : Stream :=
  write ("data: " ++ interpolate (stringify dataObj) ++ LF ++ LF)%string
    (write ("event: " ++ event ++ LF)%string res).

Definition list_tools : JSValue :=
  JObject [("event", JString "list_tools");
           ("data", JObject [("tools", TOOLS_MANIFEST)])].

Definition clearInterval (res : Stream) : Stream :=
  {| headers := headers res; chunks := chunks res;
     writableEnded := writableEnded res; keep := false; flush := flush res |}.

(** [res.end()] *)
Definition end_response (res : Stream) : Stream :=
  {| headers := headers res; chunks := chunks res;
     writableEnded := true; keep := keep res; flush := flush res |}.

(** The body of [GET /sse_once], up to the return of the handler: the
    timeout is pending. *)
Definition sse_once (res : Stream) : Stream :=
  let res := sseWrite "message" list_tools (sseHeaders res) in
  {| headers := headers res; chunks := chunks res;
     writableEnded := writableEnded res; keep := keep res; flush := true |}.

(** The body of [GET /sse]: the interval is armed. *)
Definition sse (res : Stream) : Stream :=
  let res := sseWrite "message" list_tools (sseHeaders res) in
  {| headers := headers res; chunks := chunks res;
     writableEnded := writableEnded res; keep := true; flush := flush res |}.

(** What happens to an open stream afterwards: the interval fires, the
    timeout fires, the request emits [close], or the response is ended
    from outside the handler. *)
Inductive Event : Type :=
| Tick
| Timeout
| Close
| Ended.

(** The callbacks registered by the two handlers.  A timer that is not
    armed does not fire; the timeout fires once. *)
Definition on_event (res : Stream) (ev : Event) : Stream :=
  match ev with
  | Tick =>
      if keep res
      then if writableEnded res then clearInterval res
           else sseWrite "ping" (JString "keepalive") res
      else res
  | Timeout =>
      if flush res
      then {| headers := headers res; chunks := chunks res;
              writableEnded := true; keep := keep res; flush := false |}
      else res
  | Close => clearInterval res
  | Ended => end_response res
  end.

Definition run (evs : list Event) (res : Stream) : Stream :=
  fold_left on_event evs res.

(** The ticks that find the interval armed and the response open. *)
Fixpoint live_ticks (evs : list Event) : nat :=
  match evs with
  | [] => 0
  | Tick :: evs' => S (live_ticks evs')
  | Timeout :: evs' => live_ticks evs'
  | Close :: _ | Ended :: _ => 0
  end.

(** ** A small dataset to run the model on *)

Module Sample.
Definition CSV_FILE : string := "/app/odhf_v1.1.csv".

Definition columns : list string :=
  ["Facility Name"; "City"; "Province"; "Facility Type"; "Postal Code"].

Definition row (name city province type postal : string) : Row :=
  [("Facility Name", name); ("City", city); ("Province", province);
   ("Facility Type", type); ("Postal Code", postal)].

Definition hospital : Row := row "Hopital A" "Montreal" "Quebec" "Hospital" "NaN".
Definition clinic : Row := row "Clinique B" "" "Quebec" "Clinic" "Nan".
Definition rows : list Row := [hospital; clinic].

(** A stand-in for the CSV parser: any text yields the two rows. *)
Definition parse (text : string) : Exn + list Row := inr rows.

(** Another one: any text yields a header-only table. *)
Definition parse_empty (text : string) : Exn + list Row := inr [].

Definition loaded : World :=
  {| DATA := Some rows; COLUMNS := Some columns;
     reads := 1; parses := 1; loads := 1 |}.

Definition forty : World :=
  {| DATA := Some (repeat hospital 40); COLUMNS := Some columns;
     reads := 1; parses := 1; loads := 1 |}.

(** The file has been removed since it was loaded. *)
Definition gone : FileRead :=
  inl {| exn_name := "Error";
         exn_message := "ENOENT: no such file or directory" |}.

Definition quebec_hosp : Query :=
  {| q_province := JString " quebec "; q_facility_type := JString "hosp" |}.
Definition ontario : Query :=
  {| q_province := JString "Ontario"; q_facility_type := JUndefined |}.
Definition everything : Query :=
  {| q_province := JUndefined; q_facility_type := JUndefined |}.

(** A row of another revision, without the postal code. *)
Definition short : Row := [("Facility Name", "C"); ("Province", "Quebec")].
End Sample.

(** ** Further scenarios *)

Module Scenario.
(** A dataset of another schema: no province and no facility-type header. *)
Definition foreign : World :=
  {| DATA := Some [[("Name", "A"); ("Town", "B")]];
     COLUMNS := Some ["Name"; "Town"];
     reads := 1; parses := 1; loads := 1 |}.

(** Two requests that find the file missing. *)
Definition two_failures : list (FileRead * Request) :=
  [(Sample.gone, GetRoot); (Sample.gone, GetListFields)].

(** A parser that tells two texts apart: the file as it was at first, with
    the hospital only, and as it is after an update, with both rows. *)
Definition parse_revision (text : string) : Exn + list Row :=
  if String.eqb text "first revision" then inr [Sample.hospital]
  else inr Sample.rows.

(** Two first requests overlap; the file is updated between their reads;
    a third request arrives between the two settled reads and a fourth
    after them. *)
Definition overlap : list Step :=
  [Arrive GetRoot; Arrive GetRoot;
   Settle 0 (inr "first revision"); Arrive GetRoot;
   Settle 0 (inr "second revision"); Arrive GetRoot].

(** The two rows are stored and no request is suspended. *)
Definition serving : Server :=
  {| world := Sample.loaded; waiting := []; sent := [] |}.

(** The answer of [GET /] on a dataset of [n] rows. *)
Definition running (n : nat) : Response :=
  {| status := 200;
     body := Text ("ODHF MCP Server (Node) is running! csv_found=true rows="
                   ++ decimal n) |}.

Definition shouting : Query :=
  {| q_province := JString " QUEBEC"; q_facility_type := JString "Hosp" |}.

(** A payload with a line feed inside a string. *)
Definition two_lines : JSValue :=
  JObject [("note", JString ("first" ++ LF ++ "second"))].
End Scenario.

(** * Properties *)

Arguments findCol {_} _ _ : simpl never.
Arguments search_body {_} _ _ _ _ _ : simpl never.

(** Unfolds a handler down to its call of the loader. *)
Ltac open_handler :=
  unfold health, health_rest, health_catch, list_fields, list_fields_rest,
    search_facilities, search_facilities_rest, json_catch, try_catch, bind,
    read_DATA, read_COLUMNS, ret, lift.

(** Unfolds a handler down to the module state. *)
Ltac run_handler :=
  unfold health, health_rest, health_catch, list_fields, list_fields_rest,
    search_facilities, search_facilities_rest, json_catch, try_catch,
    loadCSVOnce, loadCSVOnce_begin, loadCSVOnce_resume, bind, read_DATA,
    read_COLUMNS, parse_csv, set_DATA, set_COLUMNS, ret, lift;
  cbn.

(** ** Column resolution *)

Section ResolverFacts.
Context `{Builtins}.

Lemma toLowerCase_empty : toLowerCase "" = "".
Proof. by rewrite toLowerCase_ascii. Qed.

Lemma lowerMap_snoc (cols : list string) (c : string) :
  lowerMap (cols ++ [c]) = <[toLowerCase c := c]> (lowerMap cols).
Proof. unfold lowerMap. by rewrite fold_left_app. Qed.

(** What [lower.get(k)] finds: nothing when no column lower-cases to [k],
    and otherwise the last such column. *)
Lemma lowerMap_lookup (cols : list string) (k : string) :
  match lowerMap cols !! k with
  | None => k ∉ toLowerCase <$> cols
  | Some m =>
      exists l1 l2, cols = l1 ++ m :: l2 /\ toLowerCase m = k
                    /\ forall c, c ∈ l2 -> toLowerCase c <> k
  end.
Proof.
  induction cols as [|c cols IH] using rev_ind.
  - cbn. rewrite lookup_empty. apply not_elem_of_nil.
  - rewrite lowerMap_snoc, lookup_insert.
    destruct (decide (toLowerCase c = k)) as [Heq|Hne].
    + exists cols, []. split; [done|]. split; [done|].
      intros c' Hc'. by apply elem_of_nil in Hc'.
    + destruct (lowerMap cols !! k) as [m|] eqn:Hm.
      * destruct IH as (l1 & l2 & -> & Hk & Hlast).
        exists l1, (l2 ++ [c]). split; [by rewrite <- app_assoc|].
        split; [done|].
        intros c' [Hc'|Hc']%elem_of_app; [by apply Hlast|].
        apply list_elem_of_singleton in Hc'. by subst.
      * rewrite fmap_app, elem_of_app. intros [Hin|Hin]; [done|].
        cbn in Hin. apply list_elem_of_singleton in Hin. done.
Qed.

Lemma lowerMap_lookup_elem (cols : list string) (k m : string) :
  lowerMap cols !! k = Some m -> m ∈ cols.
Proof.
  intros Hm. pose proof (lowerMap_lookup cols k) as Hl. rewrite Hm in Hl.
  destruct Hl as (l1 & l2 & -> & _). apply elem_of_app. right. left.
Qed.

Lemma findCol_loop_elem (cols : list string) (lower : gmap string string)
    (candidates : list string) (r : string) :
  (forall k m, lower !! k = Some m -> m ∈ cols) ->
  findCol_loop cols lower candidates = Some r -> r ∈ cols.
Proof.
  intros Hlower. induction candidates as [|cand rest IH]; cbn; [done|].
  case_bool_decide as Hin; [by intros [= <-]|].
  destruct (lower !! toLowerCase cand) as [m|] eqn:Hm; [|done].
  destruct (truthy m); [|done]. intros [= <-]. by eapply Hlower.
Qed.

Lemma findCol_elem (cols candidates : list string) (r : string) :
  findCol cols candidates = Some r -> r ∈ cols.
Proof. apply findCol_loop_elem. apply lowerMap_lookup_elem. Qed.

Lemma truthy_false (s : string) : truthy s = false -> s = "".
Proof.
  unfold truthy. intros Hs. apply negb_false_iff in Hs.
  by apply String.eqb_eq in Hs.
Qed.

Lemma truthy_true (s : string) : truthy s = true <-> s <> "".
Proof.
  unfold truthy. rewrite negb_true_iff. by rewrite String.eqb_neq.
Qed.

(** C2 (as amended): [findCol] walks the aliases in insertion order and
    stops at the first alias that matches some actual column exactly or
    through lower-casing.  For that alias it returns the alias itself when
    it is an actual column, and otherwise the last actual column whose
    lower-case form equals the alias's.  An alias is skipped only when no
    column matches it in either way, and the result is none exactly when
    every alias is skipped. *)
Theorem findCol_first_matching_alias (cols aliases : list string) :
  match findCol cols aliases with
  | None => forall a, a ∈ aliases -> toLowerCase a ∉ toLowerCase <$> cols
  | Some r =>
      exists before a after,
        aliases = before ++ a :: after
        /\ (forall b, b ∈ before -> toLowerCase b ∉ toLowerCase <$> cols)
        /\ ((a ∈ cols /\ r = a)
            \/ ((a ∉ cols)
                /\ exists l1 l2, cols = l1 ++ r :: l2
                     /\ toLowerCase r = toLowerCase a
                     /\ forall c, c ∈ l2 -> toLowerCase c <> toLowerCase a))
  end.
Proof.
  unfold findCol. induction aliases as [|a rest IH]; cbn.
  - intros a Ha. by apply elem_of_nil in Ha.
  - case_bool_decide as Hin.
    { exists [], a, rest. split; [done|]. split; [|by left].
      intros b Hb. by apply elem_of_nil in Hb. }
    pose proof (lowerMap_lookup cols (toLowerCase a)) as Hl.
    destruct (lowerMap cols !! toLowerCase a) as [m|] eqn:Hm.
    + destruct (truthy m) eqn:Ht.
      * exists [], a, rest. split; [done|]. split.
        { intros b Hb. by apply elem_of_nil in Hb. }
        right. split; [done|].
        destruct Hl as (l1 & l2 & Hcols & Hk & Hlast). by exists l1, l2.
      * exfalso. apply truthy_false in Ht. subst m.
        apply lowerMap_lookup_elem in Hm as Hcol.
        destruct Hl as (_ & _ & _ & Hk & _).
        rewrite toLowerCase_empty in Hk. symmetry in Hk.
        apply toLowerCase_nonempty in Hk. by subst a.
    + destruct (findCol_loop cols (lowerMap cols) rest) as [r|].
      * destruct IH as (before & a' & after & -> & Hskip & Hhit).
        exists (a :: before), a', after. split; [done|]. split; [|done].
        intros b [->|Hb]%elem_of_cons; [done|by apply Hskip].
      * intros b [->|Hb]%elem_of_cons; [done|by apply IH].
Qed.

Lemma lowerMap_lookup_key (cols : list string) (k m : string) :
  lowerMap cols !! k = Some m -> toLowerCase m = k.
Proof.
  intros Hm. pose proof (lowerMap_lookup cols k) as Hl. rewrite Hm in Hl.
  by destruct Hl as (_ & _ & _ & Hk & _).
Qed.

(** A resolved column and the alias that selected it have the same
    lower-case form. *)
Lemma findCol_lower (cols candidates : list string) (r : string) :
  findCol cols candidates = Some r ->
  exists a, a ∈ candidates /\ toLowerCase r = toLowerCase a.
Proof.
  unfold findCol. induction candidates as [|cand rest IH]; cbn; [done|].
  case_bool_decide as Hin.
  { intros [= <-]. exists cand. split; [left|done]. }
  destruct (lowerMap cols !! toLowerCase cand) as [m|] eqn:Hm.
  - destruct (truthy m).
    + intros [= <-]. exists cand. split; [left|].
      by apply lowerMap_lookup_key in Hm.
    + intros (a & Ha & Hr)%IH. exists a. split; [by right|done].
  - intros (a & Ha & Hr)%IH. exists a. split; [by right|done].
Qed.

Lemma resolved_Some (col : option string) (c : string) :
  resolved col = Some c -> col = Some c.
Proof.
  destruct col as [c'|]; cbn; [|done]. by destruct (truthy c').
Qed.

(** With the alias table of the source, the seven names of the priority
    list are pairwise distinct: the two resolved columns lower-case to an
    alias of their own field, and no alias of one field is, up to case, an
    alias of the other or one of the five fixed names. *)
Lemma priority_NoDup (cols : list string) (colProvince colType : string) :
  resolved (findCol cols ALIAS_MAP.province) = Some colProvince ->
  resolved (findCol cols ALIAS_MAP.odhf_facility_type) = Some colType ->
  NoDup (priority colProvince colType).
Proof.
  intros (aP & HaP & HP)%resolved_Some%findCol_lower
         (aT & HaT & HT)%resolved_Some%findCol_lower.
  apply (NoDup_fmap_1 toLowerCase). unfold priority.
  rewrite !fmap_cons, HP, HT. clear HP HT.
  unfold ALIAS_MAP.province in HaP. unfold ALIAS_MAP.odhf_facility_type in HaT.
  repeat (apply elem_of_cons in HaP as [->|HaP]);
    [..|by apply elem_of_nil in HaP];
    (repeat (apply elem_of_cons in HaT as [->|HaT]);
       [..|by apply elem_of_nil in HaT]);
    rewrite !toLowerCase_ascii by reflexivity;
    refine (bool_decide_unpack _ _); vm_compute; exact I.
Qed.

Lemma resolved_column_preferred
    (cols candidates : list string) (colProvince colType : string) :
  findCol cols candidates = Some colProvince ->
  colProvince ∈ preferred cols colProvince colType.
Proof.
  intros HP%findCol_elem.
  apply list_elem_of_In, filter_In. split; [|by apply bool_decide_eq_true].
  cbn. tauto.
Qed.

(** C9: whatever the alias sets, a column returned by [findCol] is one of
    the actual columns; so once both logical columns are resolved the
    preferred list contains both of them, is not empty, and [clean] always
    takes its first branch: the branch that emits all original columns is
    never taken. *)
Theorem findCol_member_preferred_nonempty
    (cols provinceAliases typeAliases : list string)
    (colProvince colType : string) :
  findCol cols provinceAliases = Some colProvince ->
  findCol cols typeAliases = Some colType ->
  colProvince ∈ cols /\ colType ∈ cols
  /\ colProvince ∈ preferred cols colProvince colType
  /\ colType ∈ preferred cols colProvince colType
  /\ preferred cols colProvince colType <> []
  /\ forall r, clean (preferred cols colProvince colType) cols r
               = JObject (assign_all (preferred cols colProvince colType) r []).
Proof.
  intros HP%findCol_elem HT%findCol_elem.
  assert (colProvince ∈ preferred cols colProvince colType) as HinP.
  { apply list_elem_of_In, filter_In. split; [|by apply bool_decide_eq_true].
    cbn. tauto. }
  assert (colType ∈ preferred cols colProvince colType) as HinT.
  { apply list_elem_of_In, filter_In. split; [|by apply bool_decide_eq_true].
    cbn. tauto. }
  repeat split; try done.
  - intros Hnil. rewrite Hnil in HinP. by apply elem_of_nil in HinP.
  - intros r. unfold clean.
    destruct (preferred cols colProvince colType); [|done].
    by apply elem_of_nil in HinP.
Qed.

End ResolverFacts.

(** C2 (as stated) fails: with the columns [PROVINCE] and [prov], the alias
    [province] comes first and matches [PROVINCE] through lower-casing, so
    [PROVINCE] is returned although the later alias [prov] is an exact
    match; and with the single column [PROVINCE] the result is that column,
    not the alias [province] that matched it. *)
Lemma findCol_earlier_alias_wins :
  findCol ["PROVINCE"; "prov"] ALIAS_MAP.province = Some "PROVINCE"
  /\ resolveColumn_spec ["PROVINCE"; "prov"] ALIAS_MAP.province = Some "prov"
  /\ findCol ["PROVINCE"] ALIAS_MAP.province = Some "PROVINCE"
  /\ resolveColumn_spec ["PROVINCE"] ALIAS_MAP.province = Some "province"
  /\ ~ (forall cols aliases : list string,
          findCol cols aliases = resolveColumn_spec cols aliases).
Proof.
  assert (findCol ["PROVINCE"; "prov"] ALIAS_MAP.province = Some "PROVINCE")
    as Hcode by (vm_compute; reflexivity).
  assert (resolveColumn_spec ["PROVINCE"; "prov"] ALIAS_MAP.province = Some "prov")
    as Hspec by (vm_compute; reflexivity).
  split; [done|]. split; [done|].
  split; [vm_compute; reflexivity|]. split; [vm_compute; reflexivity|].
  intros Hall. specialize (Hall ["PROVINCE"; "prov"] ALIAS_MAP.province).
  rewrite Hcode, Hspec in Hall. discriminate.
Qed.

(** The same result is computed whatever the two built-ins do outside
    ASCII, since all the strings involved are ASCII. *)
Remark earlier_alias_matches_first_any `{Builtins} :
  findCol ["PROVINCE"; "prov"] ALIAS_MAP.province = Some "PROVINCE".
Proof.
  unfold findCol, lowerMap, ALIAS_MAP.province. cbn [fold_left findCol_loop].
  rewrite !toLowerCase_ascii by reflexivity. vm_compute. reflexivity.
Qed.

Lemma findCol_member_preferred_nonempty_witness :
  let cols := ["Facility Name"; "Province"; "Facility Type"] in
  "Province" ∈ cols /\ "Facility Type" ∈ cols
  /\ "Province" ∈ preferred cols "Province" "Facility Type"
  /\ "Facility Type" ∈ preferred cols "Province" "Facility Type"
  /\ preferred cols "Province" "Facility Type" <> []
  /\ forall r, clean (preferred cols "Province" "Facility Type") cols r
               = JObject (assign_all (preferred cols "Province" "Facility Type") r []).
Proof.
  apply (findCol_member_preferred_nonempty
           ["Facility Name"; "Province"; "Facility Type"]
           ALIAS_MAP.province ALIAS_MAP.odhf_facility_type);
    vm_compute; reflexivity.
Defined.

(** ** Trimming *)

Section StripFacts.
Variable one : ascii -> bool.
Variable two : ascii -> ascii -> bool.
Variable three : ascii -> ascii -> ascii -> bool.

(** [strip] removes a sequence of white-space code points and stops at a
    byte that starts none. *)
Lemma strip_split_le (n : nat) (l : list ascii) :
  length l <= n ->
  exists pre,
    l = pre ++ strip one two three l
    /\ blank one two three pre
    /\ starts_white one two three (strip one two three l) = false.
Proof.
  revert l. induction n as [|n IH]; intros l Hn.
  { destruct l; [|cbn in Hn; lia]. exists []. repeat split. constructor. }
  destruct l as [|a l1].
  { exists []. repeat split. constructor. }
  cbn [strip]. destruct (one a) eqn:H1.
  { destruct (IH l1) as (pre & Heq & Hb & Ht); [cbn in Hn; lia|].
    exists (a :: pre). split; [cbn; by rewrite <- Heq|].
    split; [by constructor|done]. }
  destruct l1 as [|b l2].
  { exists []. split; [done|]. split; [constructor|]. cbn. by rewrite H1. }
  destruct (two a b) eqn:H2.
  { destruct (IH l2) as (pre & Heq & Hb & Ht); [cbn in Hn; lia|].
    exists (a :: b :: pre). split; [cbn; by rewrite <- Heq|].
    split; [by constructor|done]. }
  destruct l2 as [|c l3].
  { exists []. split; [done|]. split; [constructor|]. cbn.
    by rewrite H1, H2. }
  destruct (three a b c) eqn:H3.
  { destruct (IH l3) as (pre & Heq & Hb & Ht); [cbn in Hn; lia|].
    exists (a :: b :: c :: pre). split; [cbn; by rewrite <- Heq|].
    split; [by constructor|done]. }
  exists []. split; [done|]. split; [constructor|]. cbn.
  by rewrite H1, H2, H3.
Qed.

Lemma strip_clean (l : list ascii) :
  starts_white one two three l = false -> strip one two three l = l.
Proof.
  destruct l as [|a [|b [|c l3]]]; cbn; [done|..];
    destruct (one a); cbn; try done;
    destruct (two a b); cbn; try done;
    destruct (three a b c); cbn; done.
Qed.

Lemma starts_white_app (l post : list ascii) :
  starts_white one two three l = true ->
  starts_white one two three (l ++ post) = true.
Proof.
  destruct l as [|a [|b [|c l3]]]; cbn; [done|..];
    destruct (one a); cbn; try done;
    destruct (two a b); cbn; try done.
Qed.

Lemma blank_app (p q : list ascii) :
  blank one two three p -> blank one two three q ->
  blank one two three (p ++ q).
Proof. induction 1; cbn; intros Hq; [done|by constructor; auto ..]. Qed.

End StripFacts.

Lemma blank_rev (p : list ascii) :
  blank is_space back2 back3 p -> blank is_space white2 white3 (List.rev p).
Proof.
  induction 1 as [|a l Ha _ IH|a b l Hab _ IH|a b c l Habc _ IH]; cbn.
  - constructor.
  - apply blank_app; [done|]. apply blank_one; [done|constructor].
  - rewrite <- app_assoc. apply blank_app; [done|].
    apply (blank_two _ _ _ b a); [done|constructor].
  - rewrite <- !app_assoc. apply blank_app; [done|].
    apply (blank_three _ _ _ c b a); [done|constructor].
Qed.

Lemma string_of_list_ascii_app (l1 l2 : list ascii) :
  string_of_list_ascii (l1 ++ l2)
  = (string_of_list_ascii l1 ++ string_of_list_ascii l2)%string.
Proof. induction l1 as [|a l1 IH]; [done|]. simpl. by rewrite IH. Qed.

(** What [js_trim] removes is white space, and what it leaves has white
    space at neither end. *)
Lemma js_trim_split (s : string) :
  (exists pre post,
      s = (pre ++ js_trim s ++ post)%string
      /\ white_space pre /\ white_space post)
  /\ starts_with_white (js_trim s) = false
  /\ ends_with_white (js_trim s) = false.
Proof.
  unfold js_trim, trimEnd, trimStart, white_space, starts_with_white,
    ends_with_white.
  rewrite !list_ascii_of_string_of_list_ascii.
  destruct (strip_split_le is_space white2 white3 _ (list_ascii_of_string s)
              (le_n _)) as (pre & Hl & Hpre & Hst).
  set (t := strip is_space white2 white3 (list_ascii_of_string s)) in *.
  destruct (strip_split_le is_space back2 back3 _ (List.rev t) (le_n _))
    as (pre' & Ht & Hpre' & Hen).
  set (m := strip is_space back2 back3 (List.rev t)) in *.
  assert (t = List.rev m ++ List.rev pre') as Hsplit.
  { rewrite <- rev_app_distr, <- Ht. by rewrite rev_involutive. }
  split.
  { exists (string_of_list_ascii pre), (string_of_list_ascii (List.rev pre')).
    rewrite !list_ascii_of_string_of_list_ascii.
    split; [|split; [done|by apply blank_rev]].
    rewrite <- !string_of_list_ascii_app, <- Hsplit, <- Hl.
    by rewrite string_of_list_ascii_of_string. }
  split; [|by rewrite rev_involutive].
  destruct (starts_white is_space white2 white3 (List.rev m)) eqn:Hm; [|done].
  apply (starts_white_app _ _ _ _ (List.rev pre')) in Hm.
  rewrite <- Hsplit in Hm. congruence.
Qed.

(** Text with white space at neither end is left as it is. *)
Lemma js_trim_clean (s : string) :
  starts_with_white s = false -> ends_with_white s = false -> js_trim s = s.
Proof.
  unfold js_trim, trimEnd, trimStart, starts_with_white, ends_with_white.
  intros Hst Hen. rewrite (strip_clean _ _ _ _ Hst).
  rewrite string_of_list_ascii_of_string, (strip_clean _ _ _ _ Hen).
  by rewrite rev_involutive, string_of_list_ascii_of_string.
Qed.

(** ** The steps of the search that may throw *)

Section BodyFacts.
Context `{Builtins}.

(** The guard [|| ""] never passes [undefined] or [null] on, so the
    [toString()] call that follows it never throws. *)
Lemma toString_or_empty (v : JSValue) :
  toString (or_empty v) = inr (text_of (or_empty v)).
Proof.
  destruct v as [| |s|items|fields]; try reflexivity.
  unfold or_empty. cbn. by destruct (truthy s).
Qed.

Lemma query_param_returns (v : JSValue) : query_param v = inr (param v).
Proof. unfold query_param. by rewrite toString_or_empty. Qed.

Lemma value_callback_returns (v : JSValue) (p : string) :
  value_callback v p = inr (value_includes v p).
Proof. unfold value_callback. by rewrite toString_or_empty. Qed.

Lemma Array_filter_returns {A} (cb : A -> Exn + bool) (f : A -> bool)
    (l : list A) :
  (forall x, cb x = inr (f x)) -> Array_filter cb l = inr (List.filter f l).
Proof.
  intros Hcb. induction l as [|x l IH]; [done|].
  cbn. rewrite Hcb, IH. cbn. by destruct (f x).
Qed.

Lemma filter_block_returns (col value : string) (rows : list Row) :
  filter_block col value rows = inr (filter_by col value rows).
Proof.
  unfold filter_block, filter_by. destruct (truthy value); [|done].
  apply Array_filter_returns. intros r. apply value_callback_returns.
Qed.

(** Lines 127-167 throw nothing: the search body returns the response
    computed from the trimmed parameters and the filtered rows. *)
Lemma search_body_returns (rows : list Row) (cols : list string)
    (colProvince colType : string) (q : Query) :
  search_body rows cols colProvince colType q
  = inr (search_rows rows cols colProvince colType q).
Proof.
  unfold search_body, search_rows.
  rewrite !query_param_returns. cbn.
  rewrite filter_block_returns. cbn. by rewrite filter_block_returns.
Qed.

End BodyFacts.

(** ** The loader and the search handler *)

Section ServerFacts.
Context `{Builtins}.
Variable CSV_FILE : string.
Variable parse : string -> Exn + list Row.

Lemma loadCSVOnce_cached (file : FileRead) (w : World) (rows : list Row) :
  DATA w = Some rows -> loadCSVOnce parse file w = (inr tt, w).
Proof. intros Hd. unfold loadCSVOnce, loadCSVOnce_begin. by rewrite Hd. Qed.

Lemma search_facilities_loaded (file : FileRead) (q : Query) (w : World)
    (rows : list Row) (cols : list string) (colProvince colType : string) :
  DATA w = Some rows -> COLUMNS w = Some cols ->
  resolved (findCol cols ALIAS_MAP.province) = Some colProvince ->
  resolved (findCol cols ALIAS_MAP.odhf_facility_type) = Some colType ->
  search_facilities CSV_FILE parse file q w
  = (search_rows rows cols colProvince colType q, w).
Proof.
  intros Hd Hc HP HT.
  unfold search_facilities, search_facilities_rest, try_catch, bind,
    read_DATA, read_COLUMNS, lift.
  rewrite (loadCSVOnce_cached file w rows Hd), Hd, Hc, HP, HT,
    search_body_returns. done.
Qed.

Lemma filter_by_passes (col value : string) (rows : list Row) :
  filter_by col value rows = List.filter (passes col value) rows.
Proof.
  unfold filter_by, passes. destruct (truthy value); cbn.
  - done.
  - induction rows as [|r rows IH]; cbn; [done|]. by rewrite <- IH.
Qed.

Lemma filter_twice {A} (f g : A -> bool) (l : list A) :
  List.filter g (List.filter f l) = List.filter (fun x => f x && g x) l.
Proof.
  induction l as [|x l IH]; cbn; [done|].
  destruct (f x); cbn; [|done]. destruct (g x); by rewrite IH.
Qed.

Lemma filter_by_matching (colProvince colType province facilityType : string)
    (rows : list Row) :
  filter_by colType facilityType (filter_by colProvince province rows)
  = matching colProvince colType province facilityType rows.
Proof. rewrite !filter_by_passes. apply filter_twice. Qed.

Lemma filter_sublist {A} (f : A -> bool) (l : list A) :
  List.filter f l `sublist_of` l.
Proof.
  induction l as [|x l IH]; cbn; [done|].
  destruct (f x); [by apply sublist_skip | by apply sublist_cons].
Qed.

Lemma passes_spec (col value : string) (r : Row) :
  passes col value r = true <->
  value = "" \/ includes (toLowerCase (text_of (or_empty (get r col))))
                         (toLowerCase value) = true.
Proof.
  unfold passes. rewrite orb_true_iff, negb_true_iff.
  split; (intros [Hv|Hi]; [left|by right]).
  - by apply truthy_false.
  - subst value. done.
Qed.

Lemma param_undefined : param JUndefined = "".
Proof. unfold param. cbn. apply trim_empty. Qed.

Lemma take_min_length {A} (n : nat) (l : list A) :
  take n l = take (Nat.min n (length l)) l.
Proof.
  destruct (Nat.min_spec n (length l)) as [[_ ->]|[Hle ->]]; [done|].
  rewrite firstn_all. apply take_ge. lia.
Qed.

(** *** Objects built by assignment *)

Lemma remove_dups_NoDup (l : list string) : NoDup l -> remove_dups l = l.
Proof.
  induction 1 as [|x l Hx _ IH]; cbn; [done|].
  destruct (decide_rel elem_of x l); [done|]. by rewrite IH.
Qed.

Lemma first_occurrences_NoDup (l : list string) :
  NoDup l -> first_occurrences l = l.
Proof.
  intros Hl. unfold first_occurrences.
  rewrite remove_dups_NoDup by by rewrite reverse_Permutation.
  apply reverse_involutive.
Qed.

Lemma elem_of_first_occurrences (l : list string) (c : string) :
  c ∈ first_occurrences l <-> c ∈ l.
Proof.
  unfold first_occurrences.
  by rewrite elem_of_reverse, elem_of_remove_dups, elem_of_reverse.
Qed.

Lemma first_occurrences_snoc (l : list string) (c : string) :
  first_occurrences (l ++ [c])
  = if bool_decide (c ∈ first_occurrences l) then first_occurrences l
    else first_occurrences l ++ [c].
Proof.
  unfold first_occurrences at 1. rewrite reverse_snoc.
  change (remove_dups (c :: reverse l))
    with (if decide_rel elem_of c (reverse l) then remove_dups (reverse l)
          else c :: remove_dups (reverse l)).
  case_bool_decide as Hin; rewrite elem_of_first_occurrences in Hin.
  - destruct (decide_rel elem_of c (reverse l)) as [_|Hn]; [done|].
    by rewrite elem_of_reverse in Hn.
  - destruct (decide_rel elem_of c (reverse l)) as [Hy|_].
    + by rewrite elem_of_reverse in Hy.
    + by rewrite reverse_cons.
Qed.

Lemma Object_set_fields (r : Row) (l : list string) (c : string) :
  Object_set (field r <$> l) c (nullish (get r c))
  = field r <$> (if bool_decide (c ∈ l) then l else l ++ [c]).
Proof.
  induction l as [|k l IH]; cbn; [done|].
  destruct (String.eqb k c) eqn:Hk.
  - apply String.eqb_eq in Hk. subst k.
    rewrite bool_decide_eq_true_2 by left. done.
  - apply String.eqb_neq in Hk. rewrite IH.
    case_bool_decide as Hin.
    + rewrite bool_decide_eq_true_2 by by right. done.
    + rewrite bool_decide_eq_false_2; [done|].
      intros [->|Hc]%elem_of_cons; done.
Qed.

Lemma assign_all_fields (names : list string) (r : Row) :
  assign_all names r [] = field r <$> first_occurrences names.
Proof.
  induction names as [|c names IH] using rev_ind; [done|].
  unfold assign_all in *. rewrite fold_left_app. cbn. rewrite IH.
  by rewrite Object_set_fields, first_occurrences_snoc.
Qed.

(** Every object emitted by [clean] lists, for the preferred columns (or
    for all columns when there is no preferred one), the normalised cell
    of the row. *)
Lemma clean_fields (pref cols : list string) (r : Row) :
  clean pref cols r
  = JObject (field r <$> first_occurrences
               (match pref with _ :: _ => pref | [] => cols end)).
Proof. unfold clean. destruct pref; by rewrite assign_all_fields. Qed.

Lemma field_names_clean (pref cols : list string) (r : Row) :
  field_names (clean pref cols r)
  = first_occurrences (match pref with _ :: _ => pref | [] => cols end).
Proof.
  rewrite clean_fields. cbn. rewrite <- list_fmap_compose.
  apply list_fmap_id.
Qed.

Lemma matching_all (colProvince colType : string) (rows : list Row) :
  matching colProvince colType "" "" rows = rows.
Proof.
  unfold matching, passes. cbn.
  induction rows as [|r rows IH]; cbn; [done|]. by rewrite IH.
Qed.

(** C3: each of the two parameters is read as [(v || "").toString().trim()],
    which returns for every value.  With [trim] the trimming of
    ECMAScript, the text of the parameter is the value filtered on between
    two runs of white space, and the value filtered on has white space at
    neither end; text without white space at its ends is filtered on as it
    is, and the text of a string parameter is the string.  A non-empty
    value keeps exactly the rows whose resolved cell, lower-cased,
    contains the lower-cased value as a substring; both values apply
    conjunctively; an absent or empty value imposes no constraint, so with
    neither the whole dataset goes on to the response stage. *)
Theorem search_filters_conjunctively (file : FileRead) (q : Query) (w : World)
    (rows : list Row) (cols : list string) (colProvince colType : string) :
  DATA w = Some rows -> COLUMNS w = Some cols ->
  resolved (findCol cols ALIAS_MAP.province) = Some colProvince ->
  resolved (findCol cols ALIAS_MAP.odhf_facility_type) = Some colType ->
  query_param (q_province q) = inr (param (q_province q))
  /\ query_param (q_facility_type q) = inr (param (q_facility_type q))
  /\ param (q_province q) = trim (text_of (or_empty (q_province q)))
  /\ param (q_facility_type q) = trim (text_of (or_empty (q_facility_type q)))
  /\ (forall s, text_of (or_empty (JString s)) = s)
  /\ ((forall s, trim s = js_trim s) ->
      forall v,
        (exists pre post : string,
            text_of (or_empty v) = (pre ++ param v ++ post)%string
            /\ white_space pre /\ white_space post)
        /\ starts_with_white (param v) = false
        /\ ends_with_white (param v) = false
        /\ (starts_with_white (text_of (or_empty v)) = false ->
            ends_with_white (text_of (or_empty v)) = false ->
            param v = text_of (or_empty v)))
  /\ search_facilities CSV_FILE parse file q w
     = (respond cols colProvince colType
          (matching colProvince colType
             (param (q_province q)) (param (q_facility_type q)) rows), w)
  /\ (forall r,
        r ∈ matching colProvince colType
              (param (q_province q)) (param (q_facility_type q)) rows
        <-> r ∈ rows
            /\ (param (q_province q) = ""
                \/ includes (toLowerCase (text_of (or_empty (get r colProvince))))
                            (toLowerCase (param (q_province q))) = true)
            /\ (param (q_facility_type q) = ""
                \/ includes (toLowerCase (text_of (or_empty (get r colType))))
                            (toLowerCase (param (q_facility_type q))) = true))
  /\ (param (q_province q) = "" -> param (q_facility_type q) = "" ->
      matching colProvince colType
        (param (q_province q)) (param (q_facility_type q)) rows = rows)
  /\ query_param JUndefined = inr "" /\ query_param (JString "") = inr ""
  /\ param JUndefined = "" /\ param (JString "") = "".
Proof.
  intros Hd Hc HP HT.
  split; [apply query_param_returns|]. split; [apply query_param_returns|].
  split; [done|]. split; [done|]. split.
  { intros s. unfold or_empty. cbn. destruct (truthy s) eqn:Hs; [done|].
    symmetry. cbn. by apply truthy_false. }
  split.
  { intros Htrim v. unfold param. rewrite Htrim.
    destruct (js_trim_split (text_of (or_empty v))) as (Hsplit & Hst & Hen).
    split; [done|]. split; [done|]. split; [done|]. apply js_trim_clean. }
  split.
  { rewrite (search_facilities_loaded file q w rows cols colProvince colType)
      by done.
    unfold search_rows. by rewrite filter_by_matching. }
  split.
  { intros r. unfold matching.
    rewrite list_elem_of_In, filter_In, andb_true_iff, !passes_spec.
    by rewrite <- list_elem_of_In. }
  split.
  { intros -> ->. apply matching_all. }
  assert (param (JString "") = "") as He by (unfold param; cbn; apply trim_empty).
  split; [by rewrite query_param_returns, param_undefined|].
  split; [by rewrite query_param_returns, He|].
  split; [apply param_undefined|done].
Qed.

(** C5: when at least one row matches, the answer is a 200 carrying
    exactly the first min(25, number of matches) matching rows, projected
    one by one and in dataset order; 40 matches give 25 items. *)
Theorem search_caps_at_25 (file : FileRead) (q : Query) (w : World)
    (rows : list Row) (cols : list string) (colProvince colType : string) :
  DATA w = Some rows -> COLUMNS w = Some cols ->
  resolved (findCol cols ALIAS_MAP.province) = Some colProvince ->
  resolved (findCol cols ALIAS_MAP.odhf_facility_type) = Some colType ->
  matching colProvince colType
    (param (q_province q)) (param (q_facility_type q)) rows <> [] ->
  let kept := matching colProvince colType
                (param (q_province q)) (param (q_facility_type q)) rows in
  let n := Nat.min 25 (length kept) in
  fst (search_facilities CSV_FILE parse file q w)
  = {| status := 200;
       body := Json (JArray (List.map
                 (clean (preferred cols colProvince colType) cols)
                 (take n kept))) |}
  /\ length (List.map (clean (preferred cols colProvince colType) cols)
               (take n kept)) = n
  /\ take n kept `prefix_of` kept
  /\ kept `sublist_of` rows
  /\ (length kept = 40 -> n = 25).
Proof.
  intros Hd Hc HP HT Hne kept n. split.
  { rewrite (search_facilities_loaded file q w rows cols colProvince colType)
      by done.
    unfold search_rows. rewrite filter_by_matching. fold kept.
    assert (take 25 kept = take n kept) as Hn by apply take_min_length.
    unfold respond, fst. rewrite Hn. change (kept <> []) in Hne.
    clearbody n. clearbody kept. by destruct kept. }
  split.
  { rewrite length_map, length_take. subst n. lia. }
  split; [apply prefix_take|]. split; [apply filter_sublist|].
  intros H40. subst n. rewrite H40. done.
Qed.

(** C7: on a loaded dataset whose two logical columns resolve, a search
    that matches no row is answered with status 200 and a body that is a
    single object with one [message] field; it is neither an error nor an
    array, and the module state is left as it was. *)
Theorem search_zero_matches (file : FileRead) (q : Query) (w : World)
    (rows : list Row) (cols : list string) (colProvince colType : string) :
  DATA w = Some rows -> COLUMNS w = Some cols ->
  resolved (findCol cols ALIAS_MAP.province) = Some colProvince ->
  resolved (findCol cols ALIAS_MAP.odhf_facility_type) = Some colType ->
  matching colProvince colType
    (param (q_province q)) (param (q_facility_type q)) rows = [] ->
  search_facilities CSV_FILE parse file q w
  = ({| status := 200;
        body := Json (JObject [("message",
          JString "No results. Try another province (e.g., 'QC'/'Quebec') or facility_type.")]) |},
     w).
Proof.
  intros Hd Hc HP HT Hnone.
  rewrite (search_facilities_loaded file q w rows cols colProvince colType)
    by done.
  unfold search_rows. rewrite filter_by_matching, Hnone. done.
Qed.

Lemma respond_items (cols : list string) (colProvince colType : string)
    (kept : list Row) (items : list JSValue) :
  respond cols colProvince colType kept
  = {| status := 200; body := Json (JArray items) |} ->
  items = List.map (clean (preferred cols colProvince colType) cols)
            (take 25 kept).
Proof.
  unfold respond. destruct kept as [|r0 kept]; [done|].
  intros [= <-]. reflexivity.
Qed.

(** C4: a cell emitted by the search is [nullish(r[c])]; that is null
    exactly when the key is absent or the stored text is empty, [NaN] or
    [nan]; any other stored text is emitted unchanged, the mixed-case
    [Nan] included. *)
Theorem nullish_null_exactly (r : Row) (c : string) :
  (forall pref cols k v,
      (k, v) ∈ match clean pref cols r with JObject fs => fs | _ => [] end ->
      v = nullish (get r k))
  /\ (nullish (get r c) = JNull
      <-> Row_lookup r c = None \/ Row_lookup r c = Some ""
          \/ Row_lookup r c = Some "NaN" \/ Row_lookup r c = Some "nan")
  /\ (forall s, Row_lookup r c = Some s ->
                s <> "" -> s <> "NaN" -> s <> "nan" ->
                nullish (get r c) = JString s)
  /\ nullish (JString "Nan") = JString "Nan".
Proof.
  split.
  { intros pref cols k v. rewrite clean_fields.
    intros (k' & [= -> ->] & _)%list_elem_of_fmap. done. }
  split; [|split; [|done]].
  - unfold get. destruct (Row_lookup r c) as [s|]; cbn.
    + destruct (String.eqb_spec s "") as [->|He]; cbn.
      { split; [tauto|done]. }
      destruct (String.eqb_spec s "NaN") as [->|Hn]; cbn.
      { split; [tauto|done]. }
      destruct (String.eqb_spec s "nan") as [->|Hl]; cbn.
      { split; [tauto|done]. }
      split; [done|]. intros [?|[?|[?|?]]]; congruence.
    + split; [tauto|done].
  - intros s Hs He Hn Hl. unfold get. rewrite Hs. cbn.
    destruct (String.eqb_spec s ""); [done|].
    destruct (String.eqb_spec s "NaN"); [done|].
    destruct (String.eqb_spec s "nan"); done.
Qed.

(** C6: every object of a search answer has as its keys exactly the names
    of the priority list (Facility Name, City, the resolved province column,
    the resolved facility-type column, Postal Code, Latitude, Longitude)
    that are actual columns, in that order.  With no preferred name at hand,
    [clean] emits all original columns instead. *)
Theorem search_projects_priority_fields (file : FileRead) (q : Query)
    (w : World) (rows : list Row) (cols : list string)
    (colProvince colType : string) (items : list JSValue) :
  DATA w = Some rows -> COLUMNS w = Some cols ->
  resolved (findCol cols ALIAS_MAP.province) = Some colProvince ->
  resolved (findCol cols ALIAS_MAP.odhf_facility_type) = Some colType ->
  fst (search_facilities CSV_FILE parse file q w)
  = {| status := 200; body := Json (JArray items) |} ->
  preferred cols colProvince colType
  = List.filter (fun c => bool_decide (c ∈ cols))
      ["Facility Name"; "City"; colProvince; colType;
       "Postal Code"; "Latitude"; "Longitude"]
  /\ (forall o, o ∈ items -> field_names o = preferred cols colProvince colType)
  /\ (forall r, field_names (clean [] cols r) = first_occurrences cols)
  /\ (NoDup cols -> forall r, field_names (clean [] cols r) = cols).
Proof.
  intros Hd Hc HP HT Hresp. split; [done|].
  assert (colProvince ∈ preferred cols colProvince colType) as Hpref.
  { apply resolved_Some in HP.
    eapply resolved_column_preferred; eassumption. }
  split.
  { rewrite (search_facilities_loaded file q w rows cols colProvince colType)
      in Hresp by done.
    unfold search_rows, fst in Hresp. apply respond_items in Hresp as ->.
    intros o (r & <- & _)%list_elem_of_In%in_map_iff.
    rewrite field_names_clean.
    destruct (preferred cols colProvince colType) as [|c pref] eqn:Hp.
    { by apply elem_of_nil in Hpref. }
    rewrite <- Hp. apply first_occurrences_NoDup. unfold preferred.
    apply NoDup_ListNoDup, List.NoDup_filter, NoDup_ListNoDup.
    by apply priority_NoDup with cols. }
  split.
  { intros r. by rewrite field_names_clean. }
  intros Hnd r. rewrite field_names_clean. by apply first_occurrences_NoDup.
Qed.

(** *** The cache *)

Lemma handle_cached (file file' : FileRead) (req : Request) (w : World)
    (rows : list Row) :
  DATA w = Some rows ->
  snd (handle CSV_FILE parse file req w) = w
  /\ handle CSV_FILE parse file req w = handle CSV_FILE parse file' req w.
Proof.
  intros Hd.
  destruct req as [| |q]; cbn; open_handler;
    rewrite !(loadCSVOnce_cached _ w rows Hd), ?Hd; [done| |].
  - by destruct (COLUMNS w).
  - destruct (COLUMNS w) as [cols|]; [|done].
    destruct (resolved (findCol cols ALIAS_MAP.province)); [|done].
    destruct (resolved (findCol cols ALIAS_MAP.odhf_facility_type)); [|done].
    by rewrite search_body_returns.
Qed.

Lemma serve_cached (reqs : list (FileRead * Request)) (w : World)
    (rows : list Row) :
  DATA w = Some rows -> snd (serve CSV_FILE parse reqs w) = w.
Proof.
  intros Hd. induction reqs as [|[file req] reqs IH]; cbn; [done|].
  destruct (handle_cached file file req w rows Hd) as [Hw _].
  destruct (handle CSV_FILE parse file req w) as [resp w']. cbn in Hw.
  subst w'. destruct (serve CSV_FILE parse reqs w) as [resps w'']. done.
Qed.

Lemma serve_repeat (files : list FileRead) (file0 : FileRead)
    (req : Request) (w : World) (rows : list Row) :
  DATA w = Some rows ->
  serve CSV_FILE parse ((fun f => (f, req)) <$> files) w
  = (replicate (length files) (fst (handle CSV_FILE parse file0 req w)), w).
Proof.
  intros Hd. induction files as [|file files IH]; cbn; [done|].
  destruct (handle_cached file file0 req w rows Hd) as [Hw Hsame].
  rewrite <- Hsame.
  destruct (handle CSV_FILE parse file req w) as [resp w']. cbn in Hw.
  subst w'. rewrite IH. cbn. by rewrite <- Hsame.
Qed.

Lemma first_request_loads (text : string) (records : list Row)
    (req : Request) :
  parse text = inr records ->
  snd (handle CSV_FILE parse (inr text) req initial)
  = {| DATA := Some records;
       COLUMNS := Some (match records with
                        | r0 :: _ => Object_keys r0
                        | [] => []
                        end);
       reads := 1; parses := 1; loads := 1 |}.
Proof.
  intros Hp.
  destruct req as [| |q]; cbn; run_handler; rewrite Hp; cbn; [done..|].
  destruct (resolved (findCol _ ALIAS_MAP.province)); [|done].
  destruct (resolved (findCol _ ALIAS_MAP.odhf_facility_type)); [|done].
  by rewrite search_body_returns.
Qed.

(** *** Cells without a value *)

Lemma includes_empty_cell (p : string) : p <> "" -> includes "" p = false.
Proof. intros Hp. destruct p; [done|reflexivity]. Qed.

Lemma value_includes_empty (v : JSValue) (value : string) :
  text_of (or_empty v) = "" -> value <> "" ->
  value_includes v (toLowerCase value) = false.
Proof.
  intros Hv Hvalue. unfold value_includes.
  rewrite Hv, toLowerCase_empty. apply includes_empty_cell.
  intros Hl. by apply toLowerCase_nonempty in Hl.
Qed.

Lemma search_facilities_never_throws (file : FileRead) (q : Query)
    (w : World) (rows : list Row) :
  DATA w = Some rows ->
  status (fst (search_facilities CSV_FILE parse file q w)) <> 500.
Proof.
  intros Hd. open_handler.
  rewrite (loadCSVOnce_cached file w rows Hd), Hd.
  destruct (COLUMNS w) as [cols|]; [|done].
  destruct (resolved (findCol cols ALIAS_MAP.province)); [|done].
  destruct (resolved (findCol cols ALIAS_MAP.odhf_facility_type)); [|done].
  rewrite search_body_returns.
  cbn. unfold search_rows, respond. by destruct (filter_by _ _ _).
Qed.

(** C10: [toString()] on a cell that is [undefined] or [null] would throw,
    but the guard [|| ""] turns such a cell, and so the cell of a missing
    key, into the empty text first.  The filter callback therefore returns
    on it: false for every non-empty filter value, so the row is dropped,
    while an empty value leaves all rows.  A filter block never throws,
    whatever the rows, and on a loaded dataset the search never ends in the
    500 of its catch block. *)
Theorem valueless_cell_filters_as_empty (r : Row) (col value : string)
    (rows : list Row) :
  Row_lookup r col = None ->
  get r col = JUndefined
  /\ (exists e, toString JUndefined = inl e)
  /\ (exists e, toString JNull = inl e)
  /\ (exists e, toString (get r col) = inl e)
  /\ toString (or_empty JUndefined) = inr ""
  /\ toString (or_empty JNull) = inr ""
  /\ toString (or_empty (get r col)) = inr ""
  /\ (value <> "" ->
      value_callback JUndefined (toLowerCase value) = inr false
      /\ value_callback JNull (toLowerCase value) = inr false
      /\ filter_callback col (toLowerCase value) r = inr false
      /\ exists kept, filter_block col value rows = inr kept /\ r ∉ kept)
  /\ (value = "" -> filter_block col value rows = inr rows)
  /\ (forall col' value' rows',
        exists kept, filter_block col' value' rows' = inr kept)
  /\ (forall file q w data,
        DATA w = Some data ->
        status (fst (search_facilities CSV_FILE parse file q w)) <> 500).
Proof.
  intros Hmiss.
  assert (get r col = JUndefined) as Hget by (unfold get; by rewrite Hmiss).
  split; [done|]. split; [by eexists|]. split; [by eexists|].
  split; [rewrite Hget; by eexists|].
  split; [done|]. split; [done|]. split; [by rewrite Hget|]. split.
  { intros Hvalue.
    assert (value_includes JUndefined (toLowerCase value) = false) as Hu
      by by apply value_includes_empty.
    assert (value_includes JNull (toLowerCase value) = false) as Hn
      by by apply value_includes_empty.
    split; [by rewrite value_callback_returns, Hu|].
    split; [by rewrite value_callback_returns, Hn|].
    split.
    { unfold filter_callback. by rewrite Hget, value_callback_returns, Hu. }
    exists (filter_by col value rows). split; [apply filter_block_returns|].
    unfold filter_by. apply truthy_true in Hvalue. rewrite Hvalue.
    rewrite list_elem_of_In, filter_In. intros [_ Hin].
    unfold cell_includes in Hin. rewrite Hget in Hin. congruence. }
  split.
  { intros ->. done. }
  split.
  { intros col' value' rows'. eexists. apply filter_block_returns. }
  intros file q w data. apply search_facilities_never_throws.
Qed.

(** *** An absent dataset *)

Lemma findCol_nil (candidates : list string) : findCol [] candidates = None.
Proof.
  unfold findCol. induction candidates as [|cand rest IH]; cbn; [done|].
  rewrite bool_decide_eq_false_2 by apply not_elem_of_nil.
  by rewrite lookup_empty.
Qed.

Lemma handle_consistent (file : FileRead) (req : Request) (w : World) :
  consistent w ->
  consistent (snd (handle CSV_FILE parse file req w))
  /\ fst (handle CSV_FILE parse file req w) <> csv_missing CSV_FILE.
Proof.
  destruct w as [[rows|] [cols|] nr np nl]; cbn; try done; intros Hl.
  - destruct req as [| |q]; cbn; [done|done|]. run_handler.
    destruct (resolved (findCol cols ALIAS_MAP.province)); [|done].
    destruct (resolved (findCol cols ALIAS_MAP.odhf_facility_type)); [|done].
    rewrite search_body_returns.
    cbn. split; [done|]. unfold search_rows, respond.
    by destruct (filter_by _ _ _).
  - subst nl.
    destruct req as [| |q]; cbn; run_handler;
      (destruct file as [e|text]; cbn; [done|]);
      (destruct (parse text) as [e|records]; cbn; [done|]); [done|done|].
    destruct (resolved (findCol _ ALIAS_MAP.province)); [|done].
    destruct (resolved (findCol _ ALIAS_MAP.odhf_facility_type)); [|done].
    rewrite search_body_returns.
    cbn. split; [done|]. unfold search_rows, respond.
    by destruct (filter_by _ _ _).
Qed.

Lemma serve_consistent (reqs : list (FileRead * Request)) (w : World) :
  consistent w -> consistent (snd (serve CSV_FILE parse reqs w)).
Proof.
  revert w. induction reqs as [|[file req] reqs IH]; intros w Hw; [done|].
  cbn. destruct (handle_consistent file req w Hw) as [Hw' _].
  destruct (handle CSV_FILE parse file req w) as [resp w'].
  specialize (IH w' Hw').
  by destruct (serve CSV_FILE parse reqs w') as [resps w''].
Qed.

(** C1 (what the code does): a file that parses to zero records is
    stored as an empty array, which is truthy, so [/list_fields] answers
    200 with an empty column list, [/search_facilities] answers the 400
    of the unresolved columns (whose body has no file path) and [/]
    answers 200 with [rows=0]; a file that cannot be read makes all three
    answer 500 through their catch blocks.  In no run from the initial
    state is the 400 that names the CSV path ever sent. *)
Theorem absent_dataset_answers (q : Query) :
  (forall text, parse text = inr [] ->
      fst (list_fields CSV_FILE parse (inr text) initial)
      = {| status := 200; body := Json (JObject [("columns", JArray [])]) |}
      /\ fst (search_facilities CSV_FILE parse (inr text) q initial)
         = columns_missing []
      /\ fst (health parse (inr text) initial)
         = {| status := 200;
              body := Text "ODHF MCP Server (Node) is running! csv_found=true rows=0" |})
  /\ (forall e,
        fst (list_fields CSV_FILE parse (inl e) initial)
        = {| status := 500; body := error_body (errorText e) |}
        /\ fst (search_facilities CSV_FILE parse (inl e) q initial)
           = {| status := 500; body := error_body (errorText e) |}
        /\ fst (health parse (inl e) initial)
           = {| status := 500; body := Text ("Startup error: " ++ errorText e) |})
  /\ (forall reqs file req,
        fst (handle CSV_FILE parse file req
               (snd (serve CSV_FILE parse reqs initial)))
        <> csv_missing CSV_FILE).
Proof.
  split.
  { intros text Hp.
    run_handler; rewrite Hp; cbn.
    rewrite !findCol_nil. done. }
  split; [done|].
  intros reqs file req. apply handle_consistent, serve_consistent. done.
Qed.

Lemma consistent_loads (w : World) : consistent w -> loads w <= 1.
Proof.
  unfold consistent. destruct (DATA w), (COLUMNS w); intros Hw; (done || lia).
Qed.

End ServerFacts.

(** ** The model at work on the sample dataset *)

Example resolve_headers :
  findCol ["Province or Territory"; "ODHF Facility Type"] ALIAS_MAP.province
  = Some "Province or Territory"
  /\ findCol ["Province or Territory"; "ODHF Facility Type"]
       ALIAS_MAP.odhf_facility_type = Some "ODHF Facility Type".
Proof. split; vm_compute; reflexivity. Qed.

Example substring_ignores_case :
  passes "Province" "QC" [("Province", "Qc-Montreal")] = true.
Proof. vm_compute. reflexivity. Qed.

Example quebec_hosp_answer :
  fst (search_facilities Sample.CSV_FILE Sample.parse Sample.gone
         Sample.quebec_hosp Sample.loaded)
  = {| status := 200;
       body := Json (JArray [JObject
         [("Facility Name", JString "Hopital A"); ("City", JString "Montreal");
          ("Province", JString "Quebec"); ("Facility Type", JString "Hospital");
          ("Postal Code", JNull)]]) |}.
Proof. vm_compute. reflexivity. Qed.

Example unfiltered_answer_cells :
  fst (search_facilities Sample.CSV_FILE Sample.parse Sample.gone
         Sample.everything Sample.loaded)
  = {| status := 200;
       body := Json (JArray
         [JObject
            [("Facility Name", JString "Hopital A"); ("City", JString "Montreal");
             ("Province", JString "Quebec"); ("Facility Type", JString "Hospital");
             ("Postal Code", JNull)];
          JObject
            [("Facility Name", JString "Clinique B"); ("City", JNull);
             ("Province", JString "Quebec"); ("Facility Type", JString "Clinic");
             ("Postal Code", JString "Nan")]]) |}.
Proof. vm_compute. reflexivity. Qed.

(** ** Instances of the theorems *)

Lemma findCol_first_matching_alias_witness :
  exists before a after,
    ALIAS_MAP.province = before ++ a :: after
    /\ (forall b, b ∈ before ->
          toLowerCase b ∉ toLowerCase <$> ["PROVINCE"; "prov"])
    /\ ((a ∈ ["PROVINCE"; "prov"] /\ "PROVINCE" = a)
        \/ ((a ∉ ["PROVINCE"; "prov"])
            /\ exists l1 l2, ["PROVINCE"; "prov"] = l1 ++ "PROVINCE" :: l2
                 /\ toLowerCase "PROVINCE" = toLowerCase a
                 /\ forall c, c ∈ l2 -> toLowerCase c <> toLowerCase a)).
Proof.
  exact (findCol_first_matching_alias ["PROVINCE"; "prov"] ALIAS_MAP.province).
Defined.

Lemma search_filters_conjunctively_witness :
  search_facilities Sample.CSV_FILE Sample.parse Sample.gone
    Sample.quebec_hosp Sample.loaded
  = (respond Sample.columns "Province" "Facility Type" [Sample.hospital],
     Sample.loaded)
  /\ query_param (JString " quebec ") = inr "quebec"
  /\ exists pre post : string,
       " quebec " = (pre ++ param (JString " quebec ") ++ post)%string
       /\ white_space pre /\ white_space post.
Proof.
  destruct (search_filters_conjunctively Sample.CSV_FILE Sample.parse
              Sample.gone Sample.quebec_hosp Sample.loaded Sample.rows
              Sample.columns "Province" "Facility Type")
    as (Hparam & _ & _ & _ & _ & Htrim & Hanswer & _);
    [vm_compute; reflexivity ..|].
  split; [exact Hanswer|]. split; [exact Hparam|].
  destruct (Htrim (fun s => eq_refl) (JString " quebec ")) as (Hsplit & _).
  exact Hsplit.
Defined.

Lemma search_caps_at_25_witness :
  exists items,
    fst (search_facilities Sample.CSV_FILE Sample.parse Sample.gone
           Sample.everything Sample.forty)
    = {| status := 200; body := Json (JArray items) |}
    /\ length items = 25.
Proof.
  destruct (search_caps_at_25 Sample.CSV_FILE Sample.parse Sample.gone
              Sample.everything Sample.forty (repeat Sample.hospital 40)
              Sample.columns "Province" "Facility Type")
    as (Hanswer & Hlen & _); [vm_compute; reflexivity ..| |].
  - vm_compute. discriminate.
  - eexists. split; [exact Hanswer | exact Hlen].
Defined.

Lemma search_zero_matches_witness :
  search_facilities Sample.CSV_FILE Sample.parse Sample.gone
    Sample.ontario Sample.loaded
  = ({| status := 200;
        body := Json (JObject [("message",
          JString "No results. Try another province (e.g., 'QC'/'Quebec') or facility_type.")]) |},
     Sample.loaded).
Proof.
  apply (search_zero_matches Sample.CSV_FILE Sample.parse Sample.gone
           Sample.ontario Sample.loaded Sample.rows Sample.columns
           "Province" "Facility Type"); vm_compute; reflexivity.
Defined.

Lemma nullish_null_exactly_witness :
  nullish (get Sample.clinic "City") = JNull
  /\ nullish (get Sample.clinic "Postal Code") = JString "Nan"
  /\ nullish (get Sample.hospital "Postal Code") = JNull
  /\ nullish (get Sample.short "City") = JNull.
Proof.
  split.
  { apply (nullish_null_exactly Sample.CSV_FILE Sample.parse Sample.clinic "City").
    right. left. vm_compute. reflexivity. }
  split.
  { destruct (nullish_null_exactly Sample.CSV_FILE Sample.parse
                Sample.clinic "Postal Code") as (_ & _ & Hpass & _).
    apply Hpass; [vm_compute; reflexivity | discriminate ..]. }
  split.
  { apply (nullish_null_exactly Sample.CSV_FILE Sample.parse
             Sample.hospital "Postal Code").
    right. right. left. vm_compute. reflexivity. }
  apply (nullish_null_exactly Sample.CSV_FILE Sample.parse Sample.short "City").
  left. vm_compute. reflexivity.
Defined.

Lemma search_projects_priority_fields_witness :
  field_names (clean (preferred Sample.columns "Province" "Facility Type")
                 Sample.columns Sample.hospital)
  = ["Facility Name"; "City"; "Province"; "Facility Type"; "Postal Code"].
Proof.
  destruct (search_projects_priority_fields Sample.CSV_FILE Sample.parse
              Sample.gone Sample.quebec_hosp Sample.loaded Sample.rows
              Sample.columns "Province" "Facility Type"
              (List.map (clean (preferred Sample.columns "Province" "Facility Type")
                           Sample.columns) [Sample.hospital]))
    as (_ & Hkeys & _); [vm_compute; reflexivity ..|].
  apply Hkeys. left.
Defined.

Lemma valueless_cell_filters_as_empty_witness :
  (exists kept,
      filter_block "Facility Type" "hosp" [Sample.short; Sample.hospital]
      = inr kept /\ Sample.short ∉ kept)
  /\ filter_block "Facility Type" "" [Sample.short; Sample.hospital]
     = inr [Sample.short; Sample.hospital].
Proof.
  split.
  - destruct (valueless_cell_filters_as_empty Sample.CSV_FILE Sample.parse
                Sample.short "Facility Type" "hosp"
                [Sample.short; Sample.hospital])
      as (_ & _ & _ & _ & _ & _ & _ & Hdrop & _); [reflexivity|].
    apply Hdrop. discriminate.
  - destruct (valueless_cell_filters_as_empty Sample.CSV_FILE Sample.parse
                Sample.short "Facility Type" ""
                [Sample.short; Sample.hospital])
      as (_ & _ & _ & _ & _ & _ & _ & _ & Hkeep & _); [reflexivity|].
    apply Hkeep. reflexivity.
Defined.

Lemma absent_dataset_answers_witness :
  fst (list_fields Sample.CSV_FILE Sample.parse_empty (inr "Province,City") initial)
  = {| status := 200; body := Json (JObject [("columns", JArray [])]) |}
  /\ fst (list_fields Sample.CSV_FILE Sample.parse Sample.gone initial)
     = {| status := 500;
          body := Json (JObject
                    [("error", JString "ENOENT: no such file or directory")]) |}.
Proof.
  split.
  - apply (absent_dataset_answers Sample.CSV_FILE Sample.parse_empty
             Sample.everything). reflexivity.
  - apply (absent_dataset_answers Sample.CSV_FILE Sample.parse
             Sample.everything).
Defined.

(** * Further properties of the code *)

(** ** Column resolution *)

Section ResolverMore.
Context `{Builtins}.

Lemma findCol_None_iff (cols aliases : list string) :
  findCol cols aliases = None
  <-> forall a, a ∈ aliases -> toLowerCase a ∉ toLowerCase <$> cols.
Proof.
  unfold findCol. induction aliases as [|a rest IH]; cbn.
  { split; [|done]. intros _ a Ha. by apply elem_of_nil in Ha. }
  case_bool_decide as Hin.
  { split; [done|]. intros Hall. exfalso.
    apply (Hall a); [left|]. by apply list_elem_of_fmap_2. }
  pose proof (lowerMap_lookup cols (toLowerCase a)) as Hl.
  destruct (lowerMap cols !! toLowerCase a) as [m|] eqn:Hm.
  - destruct Hl as (l1 & l2 & Hcols & Hk & _).
    assert (m ∈ cols) as Hmc by (by eapply lowerMap_lookup_elem).
    destruct (truthy m) eqn:Ht.
    + split; [done|]. intros Hall. exfalso. apply (Hall a); [left|].
      rewrite <- Hk. by apply list_elem_of_fmap_2.
    + exfalso. apply truthy_false in Ht. subst m.
      rewrite toLowerCase_empty in Hk. symmetry in Hk.
      apply toLowerCase_nonempty in Hk. by subst a.
  - rewrite IH. split.
    + intros Hall b [->|Hb]%elem_of_cons; [done|by apply Hall].
    + intros Hall b Hb. apply Hall. by right.
Qed.

Lemma findCol_nonempty (cols aliases : list string) (r : string) :
  findCol cols aliases = Some r -> "" ∉ aliases -> r <> "".
Proof.
  intros (a & Ha & Hr)%findCol_lower Hno ->.
  rewrite toLowerCase_empty in Hr. symmetry in Hr.
  apply toLowerCase_nonempty in Hr. by subst a.
Qed.

(** With the alias table of the source, a resolved column is never the
    empty string, so the test [!col] fails only on [null]. *)
Lemma resolved_findCol_province (cols : list string) :
  resolved (findCol cols ALIAS_MAP.province) = findCol cols ALIAS_MAP.province.
Proof.
  destruct (findCol cols ALIAS_MAP.province) as [r|] eqn:Hf; [|done].
  cbn. apply findCol_nonempty in Hf.
  - apply truthy_true in Hf. by rewrite Hf.
  - unfold ALIAS_MAP.province. rewrite list_elem_of_In. cbn.
    intuition discriminate.
Qed.

Lemma resolved_findCol_type (cols : list string) :
  resolved (findCol cols ALIAS_MAP.odhf_facility_type)
  = findCol cols ALIAS_MAP.odhf_facility_type.
Proof.
  destruct (findCol cols ALIAS_MAP.odhf_facility_type) as [r|] eqn:Hf; [|done].
  cbn. apply findCol_nonempty in Hf.
  - apply truthy_true in Hf. by rewrite Hf.
  - unfold ALIAS_MAP.odhf_facility_type. rewrite list_elem_of_In. cbn.
    intuition discriminate.
Qed.

Lemma lowerMap_lookup_unique (cols : list string) (k m : string) :
  case_unique cols ->
  lowerMap cols !! k = Some m <-> m ∈ cols /\ toLowerCase m = k.
Proof.
  intros Hu. split.
  - intros Hm. split; [by eapply lowerMap_lookup_elem|].
    by eapply lowerMap_lookup_key.
  - intros [Hmc Hk]. pose proof (lowerMap_lookup cols k) as Hl.
    destruct (lowerMap cols !! k) as [m'|] eqn:Hm'.
    + f_equal. apply Hu; [by eapply lowerMap_lookup_elem|done|].
      destruct Hl as (_ & _ & _ & Hk' & _). congruence.
    + exfalso. apply Hl. rewrite <- Hk. by apply list_elem_of_fmap_2.
Qed.

Lemma case_unique_Permutation (cols cols' : list string) :
  cols' ≡ₚ cols -> case_unique cols -> case_unique cols'.
Proof.
  intros Hp Hu c1 c2 H1 H2. rewrite Hp in H1, H2. by apply Hu.
Qed.

Lemma lowerMap_Permutation (cols cols' : list string) :
  case_unique cols -> cols' ≡ₚ cols -> lowerMap cols' = lowerMap cols.
Proof.
  intros Hu Hp. apply map_eq. intros k. apply option_eq. intros m.
  rewrite !lowerMap_lookup_unique
    by (done || by apply case_unique_Permutation with cols).
  by rewrite Hp.
Qed.

(** X2: when no two headers differ only by case, the column that
    [findCol] resolves does not depend on the order of the headers. *)
Theorem findCol_column_order (cols cols' aliases : list string) :
  case_unique cols -> cols' ≡ₚ cols ->
  findCol cols' aliases = findCol cols aliases.
Proof.
  intros Hu Hp. unfold findCol. rewrite (lowerMap_Permutation cols cols' Hu Hp).
  induction aliases as [|a rest IH]; cbn; [done|].
  rewrite IH.
  assert (bool_decide (a ∈ cols') = bool_decide (a ∈ cols)) as ->; [|done].
  apply bool_decide_ext. by rewrite Hp.
Qed.

End ResolverMore.

(** Without that hypothesis the order matters: of two headers equal up to
    case, the later one is resolved. *)
Example findCol_case_duplicates :
  findCol ["PROVINCE"; "pRoViNcE"] ALIAS_MAP.province = Some "pRoViNcE"
  /\ findCol ["pRoViNcE"; "PROVINCE"] ALIAS_MAP.province = Some "PROVINCE".
Proof. split; vm_compute; reflexivity. Qed.

Lemma findCol_column_order_witness :
  findCol ["City"; "Facility Type"; "PROVINCE"] ALIAS_MAP.province
  = findCol ["PROVINCE"; "City"; "Facility Type"] ALIAS_MAP.province.
Proof.
  apply findCol_column_order.
  - intros c1 c2 H1 H2.
    repeat (apply elem_of_cons in H1 as [->|H1]);
      [..|by apply elem_of_nil in H1];
      (repeat (apply elem_of_cons in H2 as [->|H2]);
         [..|by apply elem_of_nil in H2]);
      vm_compute; congruence.
  - symmetry.
    exact (Permutation_cons_append ["City"; "Facility Type"] "PROVINCE").
Defined.

(** ** The handlers *)

Section ServerMore.
Context `{Builtins}.
Variable CSV_FILE : string.
Variable parse : string -> Exn + list Row.

(** X1: on a loaded dataset, [/search_facilities] answers the 400 that
    lists the actual columns and both alias sets exactly when one of the two
    logical fields has no alias equal, up to case, to an actual column; in
    every other case it answers 200.  The state is not changed. *)
Theorem search_schema_mismatch (file : FileRead) (q : Query) (w : World)
    (rows : list Row) (cols : list string) :
  DATA w = Some rows -> COLUMNS w = Some cols ->
  ((forall a, a ∈ ALIAS_MAP.province -> toLowerCase a ∉ toLowerCase <$> cols)
   \/ (forall a, a ∈ ALIAS_MAP.odhf_facility_type ->
                 toLowerCase a ∉ toLowerCase <$> cols)
   <-> search_facilities CSV_FILE parse file q w = (columns_missing cols, w))
  /\ (status (fst (search_facilities CSV_FILE parse file q w)) = 200
      \/ search_facilities CSV_FILE parse file q w = (columns_missing cols, w)).
Proof.
  intros Hd Hc.
  open_handler.
  rewrite (loadCSVOnce_cached parse file w rows Hd), Hd, Hc.
  rewrite resolved_findCol_province, resolved_findCol_type.
  rewrite <- !findCol_None_iff.
  destruct (findCol cols ALIAS_MAP.province) as [colProvince|] eqn:HP.
  - destruct (findCol cols ALIAS_MAP.odhf_facility_type) as [colType|] eqn:HT.
    + rewrite search_body_returns.
      cbn. assert (status (search_rows rows cols colProvince colType q) = 200)
        as H200 by (unfold search_rows, respond; by destruct (filter_by _ _ _)).
      split; [|by left]. split; [by intros [?|?]|].
      intros [= Hresp]. rewrite Hresp in H200. done.
    + cbn. split; [|by right]. split; [done|]. intros _. by right.
  - cbn. split; [|by right]. split; [done|]. intros _. by left.
Qed.

(** *** Loads that fail *)

Lemma handle_unloaded_fails (file : FileRead) (req : Request) (w : World) :
  DATA w = None -> load_fails parse file = true ->
  exists e,
    (file = inl e \/ exists text, file = inr text /\ parse text = inl e)
    /\ fst (handle CSV_FILE parse file req w)
       = {| status := 500;
            body := match req with
                    | GetRoot => Text ("Startup error: " ++ errorText e)
                    | _ => error_body (errorText e)
                    end |}
    /\ DATA (snd (handle CSV_FILE parse file req w)) = None
    /\ COLUMNS (snd (handle CSV_FILE parse file req w)) = COLUMNS w
    /\ loads (snd (handle CSV_FILE parse file req w)) = loads w
    /\ reads (snd (handle CSV_FILE parse file req w)) = S (reads w).
Proof.
  intros Hd Hf. destruct w as [d c nr np nl]. cbn in Hd. subst d.
  unfold load_fails in Hf. destruct file as [e|text].
  - exists e. split; [by left|]. by destruct req.
  - destruct (parse text) as [e|records] eqn:Hp; [|done].
    exists e. split; [right; by exists text|].
    destruct req; cbn; run_handler; rewrite Hp; done.
Qed.

Lemma handle_unloaded_loads (text : string) (records : list Row)
    (req : Request) (w : World) :
  DATA w = None -> parse text = inr records ->
  status (fst (handle CSV_FILE parse (inr text) req w)) <> 500
  /\ DATA (snd (handle CSV_FILE parse (inr text) req w)) = Some records
  /\ COLUMNS (snd (handle CSV_FILE parse (inr text) req w))
     = Some (columns_of records).
Proof.
  intros Hd Hp. destruct w as [d c nr np nl]. cbn in Hd. subst d.
  destruct req as [| |q]; cbn; run_handler; rewrite Hp; cbn; [done|done|].
  destruct (resolved (findCol _ ALIAS_MAP.province)); [|done].
  destruct (resolved (findCol _ ALIAS_MAP.odhf_facility_type)); [|done].
  rewrite search_body_returns.
  cbn. split; [|done]. unfold search_rows, respond.
  by destruct (filter_by _ _ _).
Qed.

Lemma handle_loaded_not_500 (file : FileRead) (req : Request) (w : World)
    (rows : list Row) :
  DATA w = Some rows -> status (fst (handle CSV_FILE parse file req w)) <> 500.
Proof.
  intros Hd. destruct req as [| |q]; cbn.
  - open_handler.
    by rewrite (loadCSVOnce_cached parse file w rows Hd), Hd.
  - open_handler.
    rewrite (loadCSVOnce_cached parse file w rows Hd).
    by destruct (COLUMNS w).
  - by apply search_facilities_never_throws with rows.
Qed.

(** X3: a request is answered 500 exactly when no dataset is stored yet
    and the load throws (the read is rejected or the parser throws).  The
    body then carries the text of that error, as plain text after
    [Startup error: ] on [/] and as the [error] member elsewhere; nothing is
    stored, and the read has been counted. *)
Theorem status_500_when_load_throws (file : FileRead) (req : Request)
    (w : World) :
  (status (fst (handle CSV_FILE parse file req w)) = 500
   <-> DATA w = None /\ load_fails parse file = true)
  /\ (DATA w = None -> load_fails parse file = true ->
      exists e,
        (file = inl e \/ exists text, file = inr text /\ parse text = inl e)
        /\ fst (handle CSV_FILE parse file req w)
           = {| status := 500;
                body := match req with
                        | GetRoot => Text ("Startup error: " ++ errorText e)
                        | _ => error_body (errorText e)
                        end |}
        /\ DATA (snd (handle CSV_FILE parse file req w)) = None
        /\ COLUMNS (snd (handle CSV_FILE parse file req w)) = COLUMNS w
        /\ loads (snd (handle CSV_FILE parse file req w)) = loads w
        /\ reads (snd (handle CSV_FILE parse file req w)) = S (reads w)).
Proof.
  split; [|apply handle_unloaded_fails].
  split.
  - intros H500. destruct (DATA w) as [rows|] eqn:Hd.
    { by apply (handle_loaded_not_500 file req w rows) in Hd. }
    split; [done|]. destruct (load_fails parse file) eqn:Hf; [done|].
    exfalso. unfold load_fails in Hf. destruct file as [e|text]; [done|].
    destruct (parse text) as [e|records] eqn:Hp; [done|].
    by destruct (handle_unloaded_loads text records req w Hd Hp) as [Hne _].
  - intros [Hd Hf].
    destruct (handle_unloaded_fails file req w Hd Hf) as (e & _ & -> & _).
    done.
Qed.

Lemma handle_response_state (file : FileRead) (req : Request)
    (w1 w2 : World) :
  DATA w1 = DATA w2 -> COLUMNS w1 = COLUMNS w2 ->
  fst (handle CSV_FILE parse file req w1) = fst (handle CSV_FILE parse file req w2)
  /\ DATA (snd (handle CSV_FILE parse file req w1))
     = DATA (snd (handle CSV_FILE parse file req w2))
  /\ COLUMNS (snd (handle CSV_FILE parse file req w1))
     = COLUMNS (snd (handle CSV_FILE parse file req w2)).
Proof.
  destruct w1 as [d1 c1 nr1 np1 nl1], w2 as [d2 c2 nr2 np2 nl2]. cbn.
  intros <- <-.
  destruct req as [| |q]; cbn; run_handler;
    (destruct d1 as [rows|]; cbn;
     [|destruct file as [e|text]; cbn; [done|];
       destruct (parse text) as [e|records]; cbn; [done|]]);
    try done.
  - by destruct c1.
  - destruct c1 as [cols|]; [|done].
    destruct (resolved (findCol cols ALIAS_MAP.province)); [|done].
    destruct (resolved (findCol cols ALIAS_MAP.odhf_facility_type)); [|done].
    by rewrite search_body_returns.
  - destruct (resolved (findCol _ ALIAS_MAP.province)); [|done].
    destruct (resolved (findCol _ ALIAS_MAP.odhf_facility_type)); [|done].
    by rewrite search_body_returns.
Qed.

Lemma serve_failing (reqs : list (FileRead * Request)) (w : World) :
  DATA w = None ->
  Forall (fun fr => load_fails parse (fst fr) = true) reqs ->
  DATA (snd (serve CSV_FILE parse reqs w)) = None
  /\ COLUMNS (snd (serve CSV_FILE parse reqs w)) = COLUMNS w
  /\ reads (snd (serve CSV_FILE parse reqs w)) = length reqs + reads w
  /\ Forall (fun resp => status resp = 500) (fst (serve CSV_FILE parse reqs w)).
Proof.
  intros Hd Hall. revert w Hd.
  induction Hall as [|[file req] reqs Hf _ IH]; intros w Hd; cbn; [done|].
  cbn in Hf.
  destruct (handle_unloaded_fails file req w Hd Hf)
    as (e & _ & Hresp & Hd' & Hc' & _ & Hr').
  destruct (handle CSV_FILE parse file req w) as [resp w']. cbn in *.
  destruct (IH w' Hd') as (Hd'' & Hc'' & Hr'' & Hst).
  destruct (serve CSV_FILE parse reqs w') as [resps w'']. cbn in *.
  repeat split; [done|congruence|lia|].
  constructor; [by subst resp|done].
Qed.

(** X4: a load that throws leaves nothing cached.  After any number of
    requests whose load threw, all answered 500 and each having read the
    file once, the first request that finds a parsable file is answered as
    it would have been in a fresh process, and stores the records. *)
Theorem failed_load_is_retried (failed : list (FileRead * Request))
    (text : string) (records : list Row) (req : Request) :
  Forall (fun fr => load_fails parse (fst fr) = true) failed ->
  parse text = inr records ->
  Forall (fun resp => status resp = 500)
    (fst (serve CSV_FILE parse failed initial))
  /\ reads (snd (serve CSV_FILE parse failed initial)) = length failed
  /\ fst (handle CSV_FILE parse (inr text) req
            (snd (serve CSV_FILE parse failed initial)))
     = fst (handle CSV_FILE parse (inr text) req initial)
  /\ DATA (snd (handle CSV_FILE parse (inr text) req
                  (snd (serve CSV_FILE parse failed initial))))
     = Some records
  /\ COLUMNS (snd (handle CSV_FILE parse (inr text) req
                     (snd (serve CSV_FILE parse failed initial))))
     = Some (columns_of records).
Proof.
  intros Hall Hp.
  destruct (serve_failing failed initial eq_refl Hall) as (Hd & Hc & Hr & Hst).
  split; [done|]. split; [cbn in Hr; lia|]. split.
  { by apply handle_response_state. }
  destruct (handle_unloaded_loads text records req _ Hd Hp) as (_ & Hd' & Hc').
  done.
Qed.

End ServerMore.

(** ** Filtering and normalisation *)

Section FilterMore.
Context `{Builtins}.

Lemma append_cons (c : ascii) (s t : string) :
  (String c s ++ t)%string = String c (s ++ t)%string.
Proof. reflexivity. Qed.

Lemma prefix_split (p s : string) :
  String.prefix p s = true <-> exists post, s = (p ++ post)%string.
Proof.
  revert s. induction p as [|a p IH]; intros s.
  - split; [intros _; by exists s|intros _; by destruct s].
  - destruct s as [|b s]; cbn; [split; [done|by intros [post Hs]]|].
    destruct (ascii_dec a b) as [->|Hab].
    + rewrite IH. split; intros [post Hpost]; exists post.
      * by rewrite append_cons, <- Hpost.
      * rewrite append_cons in Hpost. by injection Hpost.
    + split; [done|]. intros [post Hpost]. rewrite append_cons in Hpost.
      injection Hpost as Hb _. by subst.
Qed.

Lemma includes_split (s p : string) :
  includes s p = true <-> exists pre post, s = (pre ++ p ++ post)%string.
Proof.
  induction s as [|c s IH]; cbn [includes];
    rewrite orb_true_iff, prefix_split.
  - split.
    + intros [[post Hp]|?]; [|done]. by exists "", post.
    + intros (pre & post & Hs). left. exists post.
      destruct pre; [done|discriminate].
  - rewrite IH. split.
    + intros [[post Hp]|(pre & post & Hs)].
      * by exists "", post.
      * exists (String c pre), post. by rewrite append_cons, Hs.
    + intros (pre & post & Hs). destruct pre as [|c' pre].
      * left. by exists post.
      * right. rewrite append_cons in Hs. injection Hs as _ Hs.
        by exists pre, post.
Qed.

(** X9: a row passes a filter block exactly when the lower-cased text of
    its cell (the empty text for a missing cell) can be cut into a part
    before, the lower-cased filter value itself, and a part after. *)
Theorem cell_includes_substring (col value : string) (r : Row)
    (rows : list Row) :
  value <> "" ->
  (cell_includes col (toLowerCase value) r = true
   <-> exists before after,
         toLowerCase (text_of (or_empty (get r col)))
         = (before ++ toLowerCase value ++ after)%string)
  /\ (r ∈ filter_by col value rows
      <-> r ∈ rows
          /\ exists before after,
               toLowerCase (text_of (or_empty (get r col)))
               = (before ++ toLowerCase value ++ after)%string).
Proof.
  intros Hv.
  assert (cell_includes col (toLowerCase value) r = true
          <-> exists before after,
                toLowerCase (text_of (or_empty (get r col)))
                = (before ++ toLowerCase value ++ after)%string) as Hcell.
  { unfold cell_includes, value_includes. apply includes_split. }
  split; [done|]. unfold filter_by. apply truthy_true in Hv. rewrite Hv.
  by rewrite list_elem_of_In, filter_In, Hcell, <- list_elem_of_In.
Qed.

Lemma truthy_lower (v v' : string) :
  toLowerCase v = toLowerCase v' -> truthy v = truthy v'.
Proof.
  intros Hl. destruct (truthy v) eqn:Hv, (truthy v') eqn:Hv'; try done.
  - apply truthy_false in Hv'. subst v'. rewrite toLowerCase_empty in Hl.
    apply toLowerCase_nonempty in Hl. subst v. done.
  - apply truthy_false in Hv. subst v. rewrite toLowerCase_empty in Hl.
    symmetry in Hl. apply toLowerCase_nonempty in Hl. subst v'. done.
Qed.

Lemma filter_by_lower (col v v' : string) (rows : list Row) :
  toLowerCase v = toLowerCase v' -> filter_by col v rows = filter_by col v' rows.
Proof.
  intros Hl. unfold filter_by. rewrite (truthy_lower v v' Hl). by rewrite Hl.
Qed.

(** X8: the answer to a search depends on the two filter values only up
    to case: two queries whose trimmed parameters have the same lower-case
    forms are answered alike. *)
Theorem search_ignores_case_of_query (rows : list Row) (cols : list string)
    (colProvince colType : string) (q q' : Query) :
  toLowerCase (param (q_province q)) = toLowerCase (param (q_province q')) ->
  toLowerCase (param (q_facility_type q))
  = toLowerCase (param (q_facility_type q')) ->
  search_rows rows cols colProvince colType q
  = search_rows rows cols colProvince colType q'.
Proof.
  intros HP HT. unfold search_rows.
  by rewrite (filter_by_lower colProvince _ _ rows HP),
             (filter_by_lower colType _ _ _ HT).
Qed.

Lemma filter_app_list {A} (f : A -> bool) (l1 l2 : list A) :
  List.filter f (l1 ++ l2) = List.filter f l1 ++ List.filter f l2.
Proof.
  induction l1 as [|x l1 IH]; cbn; [done|]. destruct (f x); by rewrite IH.
Qed.

(** X7: the two filter blocks can be applied in either order, applying
    one twice changes nothing more, a filtered list keeps its rows in
    dataset order, and whether a row is kept does not depend on the other
    rows. *)
Theorem filter_blocks_compose (c1 v1 c2 v2 : string) (rows rows' : list Row) :
  filter_by c2 v2 (filter_by c1 v1 rows) = filter_by c1 v1 (filter_by c2 v2 rows)
  /\ filter_by c1 v1 (filter_by c1 v1 rows) = filter_by c1 v1 rows
  /\ filter_by c1 v1 rows `sublist_of` rows
  /\ filter_by c1 v1 (rows ++ rows')
     = filter_by c1 v1 rows ++ filter_by c1 v1 rows'.
Proof.
  rewrite !filter_by_passes, !filter_twice. split.
  { induction rows as [|r rows IH]; cbn; [done|].
    rewrite (andb_comm (passes c1 v1 r)). destruct (passes c2 v2 r && _); by rewrite IH. }
  split.
  { induction rows as [|r rows IH]; cbn; [done|].
    destruct (passes c1 v1 r); cbn; by rewrite IH. }
  split; [apply filter_sublist|apply filter_app_list].
Qed.

End FilterMore.

(** X6: [nullish] never returns [undefined], the empty string, [NaN] or
    [nan]; applying it twice is applying it once; and it changes no array
    and no object. *)
Theorem nullish_normal_form (v : JSValue) :
  nullish (nullish v) = nullish v
  /\ nullish v <> JUndefined
  /\ nullish v <> JString "" /\ nullish v <> JString "NaN"
  /\ nullish v <> JString "nan"
  /\ (forall items, nullish (JArray items) = JArray items)
  /\ (forall fields, nullish (JObject fields) = JObject fields).
Proof.
  destruct v as [| |s|items|fields]; cbn; try done.
  destruct (String.eqb_spec s "") as [->|He]; cbn; [done|].
  destruct (String.eqb_spec s "NaN") as [->|Hn]; cbn; [done|].
  destruct (String.eqb_spec s "nan") as [->|Hl]; cbn; [done|].
  rewrite (proj2 (String.eqb_neq s "") He), (proj2 (String.eqb_neq s "NaN") Hn),
    (proj2 (String.eqb_neq s "nan") Hl). cbn.
  repeat split; congruence.
Qed.

(** ** Server-sent events *)

Section JSValue_induction.
Variable P : JSValue -> Prop.
Hypothesis P_undefined : P JUndefined.
Hypothesis P_null : P JNull.
Hypothesis P_string : forall s, P (JString s).
Hypothesis P_array : forall items, Forall P items -> P (JArray items).
Hypothesis P_object :
  forall fields, Forall (fun kv => P (snd kv)) fields -> P (JObject fields).

Fixpoint JSValue_induction (v : JSValue) : P v :=
  match v with
  | JUndefined => P_undefined
  | JNull => P_null
  | JString s => P_string s
  | JArray items =>
      P_array items
        ((fix all (l : list JSValue) : Forall P l :=
            match l with
            | [] => List.Forall_nil P
            | x :: l' => @List.Forall_cons _ P x l' (JSValue_induction x) (all l')
            end) items)
  | JObject fields =>
      P_object fields
        ((fix all (l : list (string * JSValue))
            : Forall (fun kv => P (snd kv)) l :=
            match l with
            | [] => List.Forall_nil _
            | kv :: l' =>
                @List.Forall_cons _ (fun kv => P (snd kv)) kv l'
                  (JSValue_induction (snd kv)) (all l')
            end) fields)
  end.
End JSValue_induction.

Lemma single_line_app (a b : string) :
  single_line (a ++ b) = single_line a && single_line b.
Proof.
  induction a as [|c a IH]; [done|].
  rewrite append_cons. cbn [single_line]. rewrite IH. by rewrite andb_assoc.
Qed.

Lemma escape_single_line (c : ascii) : single_line (escape c) = true.
Proof. destruct c as [[] [] [] [] [] [] [] []]; vm_compute; reflexivity. Qed.

Lemma quote_single_line (s : string) : single_line (quote s) = true.
Proof.
  unfold quote. cbn [single_line]. rewrite single_line_app.
  replace (single_line (quote_body s)) with true; [done|].
  induction s as [|c s IH]; [done|].
  cbn [quote_body]. by rewrite single_line_app, escape_single_line.
Qed.

Lemma concat_single_line (sep : string) (l : list string) :
  single_line sep = true -> Forall (fun j => single_line j = true) l ->
  single_line (String.concat sep l) = true.
Proof.
  intros Hsep. induction 1 as [|j l Hj _ IH]; [done|].
  cbn [String.concat]. destruct l as [|j' l]; [done|].
  by rewrite !single_line_app, Hj, Hsep, IH.
Qed.

(** The text [JSON.stringify] returns holds no line break, whatever the
    value: a line feed inside a string is written as an escape. *)
Lemma stringify_single_line (v : JSValue) :
  forall j, stringify v = Some j -> single_line j = true.
Proof.
  induction v as [| |s|items IH|fields IH] using JSValue_induction;
    intros j Hj; cbn in Hj.
  - done.
  - by injection Hj as <-.
  - injection Hj as <-. apply quote_single_line.
  - injection Hj as <-. rewrite !single_line_app.
    rewrite concat_single_line; [reflexivity|done|].
    induction IH as [|x items Hx _ IHitems]; cbn; constructor; [|done].
    destruct (stringify x) as [jx|]; [by apply Hx|done].
  - injection Hj as <-. rewrite !single_line_app.
    rewrite concat_single_line; [reflexivity|done|].
    induction IH as [|[k x] fields Hx _ IHfields]; cbn; [constructor|].
    cbn in Hx. destruct (stringify x) as [jx|]; [|done].
    constructor; [|done].
    by rewrite !single_line_app, quote_single_line, (Hx jx eq_refl).
Qed.

(** X10: [sseWrite] appends exactly one event to the stream: a line
    [event: <name>] and a line [data: <JSON>], closed by an empty line.  The
    JSON text never holds a line break, so no payload can break the
    framing; the headers, the end flag and the timers are left alone. *)
Theorem sseWrite_frames_one_event (event : string) (dataObj : JSValue)
    (res : Stream) :
  chunks (sseWrite event dataObj res)
  = chunks res
    ++ [("event: " ++ event ++ LF)%string;
        ("data: " ++ interpolate (stringify dataObj) ++ LF ++ LF)%string]
  /\ single_line (interpolate (stringify dataObj)) = true
  /\ (single_line event = true ->
      single_line ("event: " ++ event) = true
      /\ single_line ("data: " ++ interpolate (stringify dataObj)) = true)
  /\ headers (sseWrite event dataObj res) = headers res
  /\ writableEnded (sseWrite event dataObj res) = writableEnded res
  /\ keep (sseWrite event dataObj res) = keep res
  /\ flush (sseWrite event dataObj res) = flush res.
Proof.
  assert (single_line (interpolate (stringify dataObj)) = true) as Hdata.
  { destruct (stringify dataObj) as [j|] eqn:Hj; [|done].
    by apply (stringify_single_line dataObj). }
  split.
  { unfold sseWrite, write. cbn. by rewrite <- app_assoc. }
  split; [done|]. split; [|done].
  intros Hev. by rewrite !single_line_app, Hev, Hdata.
Qed.

(** *** The two streaming handlers *)

Lemma run_cons (ev : Event) (evs : list Event) (res : Stream) :
  run (ev :: evs) res = run evs (on_event res ev).
Proof. reflexivity. Qed.

Lemma run_app (evs evs' : list Event) (res : Stream) :
  run (evs ++ evs') res = run evs' (run evs res).
Proof. unfold run. apply fold_left_app. Qed.

Lemma on_event_flush (res : Stream) (ev : Event) :
  flush res = false -> flush (on_event res ev) = false.
Proof.
  intros Hf. destruct ev; cbn; [|by rewrite Hf|done|done].
  destruct (keep res); [|done]. by destruct (writableEnded res).
Qed.

Lemma run_flush (evs : list Event) (res : Stream) :
  flush res = false -> flush (run evs res) = false.
Proof.
  revert res. induction evs as [|ev evs IH]; intros res Hf; [done|].
  rewrite run_cons. apply IH. by apply on_event_flush.
Qed.

Lemma on_event_keep (res : Stream) (ev : Event) :
  keep res = false -> keep (on_event res ev) = false /\
                      chunks (on_event res ev) = chunks res.
Proof.
  intros Hk. destruct ev; cbn; [by rewrite Hk| |done|done].
  by destruct (flush res).
Qed.

Lemma run_keep (evs : list Event) (res : Stream) :
  keep res = false -> chunks (run evs res) = chunks res.
Proof.
  revert res. induction evs as [|ev evs IH]; intros res Hk; [done|].
  rewrite run_cons. destruct (on_event_keep res ev Hk) as [Hk' Hc'].
  by rewrite (IH _ Hk'), Hc'.
Qed.

Lemma run_ended (evs : list Event) (res : Stream) :
  writableEnded res = true -> chunks (run evs res) = chunks res.
Proof.
  revert res. induction evs as [|ev evs IH]; intros res He; [done|].
  rewrite run_cons. destruct ev; cbn [on_event].
  - destruct (keep res) eqn:Hk.
    + rewrite He. by rewrite run_keep.
    + by apply IH.
  - destruct (flush res); by rewrite IH.
  - by rewrite run_keep.
  - by rewrite IH.
Qed.

Lemma run_pings (evs : list Event) (res : Stream) :
  keep res = true -> writableEnded res = false -> flush res = false ->
  chunks (run evs res)
  = chunks res
    ++ concat (replicate (live_ticks evs)
                 (event_chunks "ping" (JString "keepalive"))).
Proof.
  revert res. induction evs as [|ev evs IH]; intros res Hk He Hf.
  { cbn. by rewrite app_nil_r. }
  rewrite run_cons. destruct ev; cbn [on_event live_ticks].
  - rewrite Hk, He. rewrite IH by done.
    cbn. by rewrite <- !app_assoc.
  - rewrite Hf. by apply IH.
  - rewrite run_keep by done. cbn. by rewrite app_nil_r.
  - rewrite run_ended by done. cbn. by rewrite app_nil_r.
Qed.

(** X11: the stream of [/sse] is the [list_tools] message followed by one
    [ping] event for each firing of the interval, up to the first [close]
    of the request or end of the response; once the request has closed,
    nothing more is ever written. *)
Theorem sse_pings_until_close (res : Stream) (evs evs' : list Event) :
  writableEnded res = false -> flush res = false ->
  chunks (run evs (sse res))
  = chunks res ++ event_chunks "message" list_tools
    ++ concat (replicate (live_ticks evs)
                 (event_chunks "ping" (JString "keepalive")))
  /\ chunks (run (evs ++ Close :: evs') (sse res)) = chunks (run evs (sse res))
  /\ keep (run (evs ++ [Close]) (sse res)) = false.
Proof.
  intros He Hf. split.
  { rewrite run_pings by done. cbn. by rewrite <- !app_assoc. }
  split.
  - rewrite run_app, run_cons. cbn [on_event]. by rewrite run_keep.
  - by rewrite run_app.
Qed.

Lemma on_event_Tick (res : Stream) :
  flush (on_event res Tick) = flush res
  /\ writableEnded (on_event res Tick) = writableEnded res.
Proof.
  cbn. destruct (keep res); [|done].
  destruct (writableEnded res) eqn:He; cbn; by rewrite ?He.
Qed.

Lemma run_timeout_ends (evs : list Event) (res : Stream) :
  flush res = true \/ writableEnded res = true ->
  Timeout ∈ evs -> writableEnded (run evs res) = true.
Proof.
  assert (forall evs res, writableEnded res = true ->
                          writableEnded (run evs res) = true) as Hmono.
  { clear. intros evs. induction evs as [|ev evs IH]; intros res He; [done|].
    rewrite run_cons. apply IH. destruct ev; cbn; try done.
    - destruct (keep res); [|done]. by rewrite He.
    - by destruct (flush res). }
  revert res. induction evs as [|ev evs IH]; intros res Hres Hin.
  { by apply elem_of_nil in Hin. }
  rewrite run_cons. destruct ev.
  - apply IH.
    + destruct (on_event_Tick res) as [-> ->]. done.
    + by apply elem_of_cons in Hin as [?|?].
  - apply Hmono. cbn. destruct (flush res) eqn:Hf; [done|].
    by destruct Hres.
  - apply IH; [|by apply elem_of_cons in Hin as [?|?]].
    by destruct Hres as [Hf|He]; [left|right].
  - by apply Hmono.
Qed.

(** X12: the stream of [/sse_once] carries the [list_tools] message and
    nothing else, whatever happens afterwards, and the response is ended
    once the timeout has fired. *)
Theorem sse_once_single_message (res : Stream) (evs : list Event) :
  keep res = false ->
  chunks (run evs (sse_once res))
  = chunks res ++ event_chunks "message" list_tools
  /\ (Timeout ∈ evs -> writableEnded (run evs (sse_once res)) = true)
  /\ writableEnded (sse_once res) = writableEnded res.
Proof.
  intros Hk. split.
  { rewrite run_keep by done. cbn. by rewrite <- !app_assoc. }
  split; [|done]. apply run_timeout_ends. by left.
Qed.

(** ** The lazy load *)

Section LazyLoad.
Context `{Builtins}.
Variable CSV_FILE : string.
Variable parse : string -> Exn + list Row.

(** X13: the lazy load cannot be told from an eager one.  A request that
    finds no stored dataset and a parsable file is answered exactly as the
    same request on the state that holds the parsed records, and leaves that
    state behind: one more read, one more parse, one assignment. *)
Theorem lazy_load_is_transparent (text : string) (records : list Row)
    (req : Request) (w : World) (file' : FileRead) :
  DATA w = None -> parse text = inr records ->
  handle CSV_FILE parse (inr text) req w
  = (fst (handle CSV_FILE parse file' req
            {| DATA := Some records; COLUMNS := Some (columns_of records);
               reads := S (reads w); parses := S (parses w);
               loads := S (loads w) |}),
     {| DATA := Some records; COLUMNS := Some (columns_of records);
        reads := S (reads w); parses := S (parses w);
        loads := S (loads w) |}).
Proof.
  intros Hd Hp. destruct w as [d c nr np nl]. cbn in Hd. subst d.
  destruct req as [| |q]; cbn;
    run_handler; rewrite Hp; cbn; [done|done|].
  fold (columns_of records).
  destruct (resolved (findCol (columns_of records) ALIAS_MAP.province));
    [|done].
  destruct (resolved (findCol (columns_of records) ALIAS_MAP.odhf_facility_type)); [|done].
  by rewrite search_body_returns.
Qed.

End LazyLoad.

(** ** Requests that overlap *)

Section Overlap.
Context `{Builtins}.
Variable CSV_FILE : string.
Variable parse : string -> Exn + list Row.

(** The code after the [await] reads the module state and never writes
    it. *)
Lemma after_load_state (req : Request) (w : World) :
  snd (try_catch (after_load CSV_FILE req) (on_error req) w) = w.
Proof.
  destruct req as [| |q]; cbn; open_handler; [done| |].
  - by destruct (COLUMNS w).
  - destruct (DATA w); [|done]. destruct (COLUMNS w) as [cols|]; [|done].
    destruct (resolved (findCol cols ALIAS_MAP.province)); [|done].
    destruct (resolved (findCol cols ALIAS_MAP.odhf_facility_type)); [|done].
    by destruct (search_body _ _ _ _ _).
Qed.

Lemma handle_turns (file : FileRead) (req : Request) (w : World) :
  handle CSV_FILE parse file req w
  = let (suspended, w1) := loadCSVOnce_begin w in
    if suspended
    then try_catch (let* _ := loadCSVOnce_resume parse file in
                    after_load CSV_FILE req) (on_error req) w1
    else try_catch (after_load CSV_FILE req) (on_error req) w1.
Proof.
  destruct req as [| |q]; cbn;
    unfold health, list_fields, search_facilities, try_catch, bind,
      loadCSVOnce;
    destruct (loadCSVOnce_begin w) as [[|] w1]; done.
Qed.

Lemma arrive_loaded (req : Request) (file : FileRead) (s : Server)
    (rows : list Row) :
  DATA (world s) = Some rows ->
  arrive CSV_FILE req s
  = {| world := world s; waiting := waiting s;
       sent := sent s ++ [fst (handle CSV_FILE parse file req (world s))] |}.
Proof.
  intros Hd. rewrite handle_turns. unfold arrive, loadCSVOnce_begin.
  rewrite Hd. pose proof (after_load_state req (world s)) as Hw.
  destruct (try_catch (after_load CSV_FILE req) (on_error req) (world s))
    as [resp w2].
  cbn in *. by subst w2.
Qed.

(** Two turns, an arrival and its read settled at once, are a request
    served alone. *)
Lemma turns_of_one_request (file : FileRead) (req : Request) (s : Server) :
  waiting s = [] ->
  settle CSV_FILE parse 0 file (arrive CSV_FILE req s)
  = {| world := snd (handle CSV_FILE parse file req (world s));
       waiting := [];
       sent := sent s ++ [fst (handle CSV_FILE parse file req (world s))] |}.
Proof.
  intros Hq. rewrite handle_turns. unfold arrive.
  destruct (loadCSVOnce_begin (world s)) as [[|] w1].
  - unfold settle. cbn. rewrite Hq. cbn.
    by destruct (try_catch _ _ w1) as [resp w2].
  - destruct (try_catch _ _ w1) as [resp w2]. unfold settle. cbn.
    by rewrite Hq.
Qed.

Lemma play_one_by_one (reqs : list (FileRead * Request)) (s : Server) :
  waiting s = [] ->
  play CSV_FILE parse (one_by_one reqs) s
  = {| world := snd (serve CSV_FILE parse reqs (world s));
       waiting := [];
       sent := sent s ++ fst (serve CSV_FILE parse reqs (world s)) |}.
Proof.
  revert s. induction reqs as [|[file req] reqs IH]; intros s Hq.
  { destruct s as [w q r]. cbn in *. subst q. by rewrite app_nil_r. }
  change (play CSV_FILE parse (one_by_one ((file, req) :: reqs)) s)
    with (play CSV_FILE parse (one_by_one reqs)
            (settle CSV_FILE parse 0 file (arrive CSV_FILE req s))).
  rewrite (turns_of_one_request file req s Hq), IH by done.
  cbn [world sent serve].
  destruct (handle CSV_FILE parse file req (world s)) as [resp w']. cbn.
  destruct (serve CSV_FILE parse reqs w') as [resps w'']. cbn.
  by rewrite <- app_assoc.
Qed.

(** The state a settled read leaves is the state the second part of
    [loadCSVOnce] leaves. *)
Lemma resume_state (file : FileRead) (req : Request) (w : World) :
  snd (try_catch (let* _ := loadCSVOnce_resume parse file in
                  after_load CSV_FILE req) (on_error req) w)
  = snd (loadCSVOnce_resume parse file w).
Proof.
  unfold try_catch at 1. unfold bind.
  destruct (loadCSVOnce_resume parse file w) as [[e|[]] w1]; [done|].
  pose proof (after_load_state req w1) as Hw. unfold try_catch in Hw.
  by destruct (after_load CSV_FILE req w1) as [[e|resp] w2].
Qed.

Lemma settle_world (i : nat) (file : FileRead) (s : Server) :
  world (settle CSV_FILE parse i file s)
  = match waiting s !! i with
    | Some _ => snd (loadCSVOnce_resume parse file (world s))
    | None => world s
    end.
Proof.
  unfold settle. destruct (waiting s !! i) as [req|]; [|done].
  rewrite <- (resume_state file req (world s)).
  by destruct (try_catch _ _ (world s)) as [resp w2].
Qed.

Lemma settle_waiting (i : nat) (file : FileRead) (s : Server) :
  waiting (settle CSV_FILE parse i file s)
  = match waiting s !! i with
    | Some _ => delete i (waiting s)
    | None => waiting s
    end.
Proof.
  unfold settle. destruct (waiting s !! i) as [req|]; [|done].
  by destruct (try_catch _ _ (world s)) as [resp w2].
Qed.

(** A turn that can store nothing but the records already stored keeps
    them, and their columns. *)
Lemma step_keeps_dataset (st : Step) (s : Server) (records : list Row) :
  DATA (world s) = Some records ->
  COLUMNS (world s) = Some (columns_of records) ->
  settles_to parse records st ->
  DATA (world (step CSV_FILE parse s st)) = Some records
  /\ COLUMNS (world (step CSV_FILE parse s st)) = Some (columns_of records).
Proof.
  intros Hd Hc Hst. destruct st as [req|i file]; cbn [step].
  - by rewrite (arrive_loaded req (inr EmptyString) s records Hd).
  - rewrite settle_world. destruct (waiting s !! i) as [req|]; [|done].
    unfold loadCSVOnce_resume. destruct file as [e|text]; [done|].
    cbn in Hst. unfold bind, parse_csv, set_DATA, set_COLUMNS. cbn.
    destruct (parse text) as [e|records']; [done|]. by subst records'.
Qed.

Lemma play_keeps_dataset (steps : list Step) (s : Server)
    (records : list Row) :
  DATA (world s) = Some records ->
  COLUMNS (world s) = Some (columns_of records) ->
  Forall (settles_to parse records) steps ->
  DATA (world (play CSV_FILE parse steps s)) = Some records
  /\ COLUMNS (world (play CSV_FILE parse steps s)) = Some (columns_of records).
Proof.
  intros Hd Hc Hall. revert s Hd Hc.
  induction Hall as [|st steps Hst _ IH]; intros s Hd Hc; [done|].
  destruct (step_keeps_dataset st s records Hd Hc Hst) as [Hd' Hc'].
  by apply IH.
Qed.

(** Once the dataset is stored and no request is suspended, no turn
    changes the state, and none suspends a request. *)
Lemma play_settled (steps : list Step) (s : Server) (rows : list Row) :
  DATA (world s) = Some rows -> waiting s = [] ->
  world (play CSV_FILE parse steps s) = world s
  /\ waiting (play CSV_FILE parse steps s) = [].
Proof.
  revert s. induction steps as [|st steps IH]; intros s Hd Hq; [done|].
  change (play CSV_FILE parse (st :: steps) s)
    with (play CSV_FILE parse steps (step CSV_FILE parse s st)).
  assert (world (step CSV_FILE parse s st) = world s
          /\ waiting (step CSV_FILE parse s st) = []) as [Hw' Hq'].
  { destruct st as [req|i file]; cbn [step].
    - by rewrite (arrive_loaded req (inr EmptyString) s rows Hd).
    - unfold settle. by rewrite Hq. }
  destruct (IH (step CSV_FILE parse s st)) as [Hw'' Hq'']; [congruence|done|].
  split; congruence.
Qed.

(** Requests that arrive once the dataset is stored are answered in the
    turn they arrive in, from the stored dataset. *)
Lemma play_arrivals (n : nat) (req : Request) (file : FileRead) (s : Server)
    (rows : list Row) :
  DATA (world s) = Some rows ->
  play CSV_FILE parse (replicate n (Arrive req)) s
  = {| world := world s; waiting := waiting s;
       sent := sent s
               ++ replicate n (fst (handle CSV_FILE parse file req (world s))) |}.
Proof.
  revert s. induction n as [|n IH]; intros s Hd.
  { destruct s as [w q r]. cbn. by rewrite app_nil_r. }
  change (play CSV_FILE parse (replicate (S n) (Arrive req)) s)
    with (play CSV_FILE parse (replicate n (Arrive req))
            (arrive CSV_FILE req s)).
  rewrite (arrive_loaded req file s rows Hd).
  rewrite IH by done. cbn. by rewrite <- app_assoc.
Qed.

(** The first request, served alone on a text that parses, reads and
    parses once. *)
Lemma first_request_turns (text : string) (records : list Row)
    (req : Request) :
  parse text = inr records ->
  world (play CSV_FILE parse [Arrive req; Settle 0 (inr text)] boot)
  = {| DATA := Some records; COLUMNS := Some (columns_of records);
       reads := 1; parses := 1; loads := 1 |}
  /\ waiting (play CSV_FILE parse [Arrive req; Settle 0 (inr text)] boot) = [].
Proof.
  intros Hp.
  change (play CSV_FILE parse [Arrive req; Settle 0 (inr text)] boot)
    with (settle CSV_FILE parse 0 (inr text) (arrive CSV_FILE req boot)).
  rewrite (turns_of_one_request (inr text) req boot) by done.
  cbn [world waiting boot]. split; [|done].
  by apply first_request_loads.
Qed.

(** *** The state in every schedule *)

Lemma step_coherent (st : Step) (s : Server) :
  coherent s -> coherent (step CSV_FILE parse s st).
Proof.
  unfold coherent. intros (Hdc & Hlp & Hpr).
  destruct st as [req|i file]; cbn [step].
  - destruct (DATA (world s)) as [rows|] eqn:Hd.
    + rewrite (arrive_loaded req (inr EmptyString) s rows Hd). cbn.
      by rewrite Hd.
    + unfold arrive, loadCSVOnce_begin. rewrite Hd. cbn. rewrite ?Hd.
      destruct Hdc as [Hc Hl].
      rewrite length_app. cbn. repeat split; (done || lia).
  - rewrite settle_world, settle_waiting.
    destruct (waiting s !! i) as [req|] eqn:Hi; [|done].
    assert (length (delete i (waiting s)) = length (waiting s) - 1) as Hlen
      by by apply length_delete.
    assert (1 <= length (waiting s)) as Hpos.
    { apply lookup_lt_Some in Hi. lia. }
    rewrite Hlen. unfold loadCSVOnce_resume.
    destruct file as [e|text]; cbn.
    { repeat split; (done || lia). }
    unfold bind, parse_csv, set_DATA, set_COLUMNS.
    destruct (parse text) as [e|records]; cbn.
    { split; [|lia]. destruct (DATA (world s)); [done|].
      destruct Hdc as [-> ->]. done. }
    repeat split; lia.
Qed.

Lemma play_coherent (steps : list Step) (s : Server) :
  coherent s -> coherent (play CSV_FILE parse steps s).
Proof.
  revert s. induction steps as [|st steps IH]; intros s Hs; [done|].
  apply IH. by apply step_coherent.
Qed.

(** C8 (as amended): once [DATA] and [COLUMNS] are assigned, a call of
    the loader that begins afterwards returns at its guard, whatever the
    file has become, without reading or parsing: the whole state, counters
    included, is unchanged.  The code of the handlers after the load
    changes no state.  A request that arrives is answered in the turn it
    arrives in, from the stored dataset, with the stored column list and
    row count, so any number of arrivals of one request get equal answers.
    When no request is suspended at the read of the file, no turn
    whatever changes the state again; while some are, the stored records
    and columns stay as long as no settled read parses to other records.
    The first request, served alone on a text that parses, reads and
    parses once, and no later turn changes the state; and in every run
    whose requests do not overlap [DATA] is assigned at most once. *)
Theorem dataset_cached_after_load (s : Server) (rows : list Row)
    (cols : list string) :
  DATA (world s) = Some rows -> COLUMNS (world s) = Some cols ->
  (forall file, loadCSVOnce parse file (world s) = (inr tt, world s))
  /\ (forall req w,
        snd (try_catch (after_load CSV_FILE req) (on_error req) w) = w)
  /\ (forall file req,
        snd (handle CSV_FILE parse file req (world s)) = world s)
  /\ (forall file req,
        step CSV_FILE parse s (Arrive req)
        = {| world := world s; waiting := waiting s;
             sent := sent s
                     ++ [fst (handle CSV_FILE parse file req (world s))] |})
  /\ (forall file,
        fst (handle CSV_FILE parse file GetListFields (world s))
        = {| status := 200; body := Json (JObject [("columns", strings cols)]) |})
  /\ (forall file,
        fst (handle CSV_FILE parse file GetRoot (world s))
        = {| status := 200;
             body := Text ("ODHF MCP Server (Node) is running! csv_found=true rows="
                           ++ decimal (length rows)) |})
  /\ (forall file req n,
        play CSV_FILE parse (replicate n (Arrive req)) s
        = {| world := world s; waiting := waiting s;
             sent := sent s
                     ++ replicate n
                          (fst (handle CSV_FILE parse file req (world s))) |})
  /\ (waiting s = [] ->
      forall steps,
        world (play CSV_FILE parse steps s) = world s
        /\ waiting (play CSV_FILE parse steps s) = [])
  /\ (cols = columns_of rows ->
      forall steps,
        Forall (settles_to parse rows) steps ->
        DATA (world (play CSV_FILE parse steps s)) = Some rows
        /\ COLUMNS (world (play CSV_FILE parse steps s)) = Some cols)
  /\ (forall text records req steps,
        parse text = inr records ->
        world (play CSV_FILE parse [Arrive req; Settle 0 (inr text)] boot)
        = {| DATA := Some records; COLUMNS := Some (columns_of records);
             reads := 1; parses := 1; loads := 1 |}
        /\ world (play CSV_FILE parse
                    ([Arrive req; Settle 0 (inr text)] ++ steps) boot)
           = world (play CSV_FILE parse [Arrive req; Settle 0 (inr text)] boot))
  /\ (forall reqs,
        play CSV_FILE parse (one_by_one reqs) boot
        = {| world := snd (serve CSV_FILE parse reqs initial);
             waiting := [];
             sent := fst (serve CSV_FILE parse reqs initial) |}
        /\ loads (snd (serve CSV_FILE parse reqs initial)) <= 1).
Proof.
  intros Hd Hc. split.
  { intros file. by apply loadCSVOnce_cached with rows. }
  split; [apply after_load_state|]. split.
  { intros file req.
    by apply (handle_cached CSV_FILE parse file file req (world s) rows). }
  split.
  { intros file req. by apply arrive_loaded with rows. }
  split.
  { intros file. cbn. open_handler.
    by rewrite (loadCSVOnce_cached parse file (world s) rows Hd), Hc. }
  split.
  { intros file. cbn. open_handler.
    by rewrite (loadCSVOnce_cached parse file (world s) rows Hd), Hd. }
  split.
  { intros file req n. by apply play_arrivals with rows. }
  split.
  { intros Hq steps. by apply play_settled with rows. }
  split.
  { intros -> steps Hall. by apply play_keeps_dataset. }
  split.
  { intros text records req steps Hp.
    destruct (first_request_turns text records req Hp) as [Hw Hq].
    split; [done|].
    change (play CSV_FILE parse
              ([Arrive req; Settle 0 (inr text)] ++ steps) boot)
      with (play CSV_FILE parse steps
              (play CSV_FILE parse [Arrive req; Settle 0 (inr text)] boot)).
    apply (play_settled steps _ records); [by rewrite Hw|done]. }
  intros reqs. split.
  - by rewrite (play_one_by_one reqs boot).
  - apply consistent_loads, serve_consistent. done.
Qed.

(** X5: in every schedule of arrivals and settled reads from the start
    of the process, overlapping or not, [DATA] and [COLUMNS] are assigned
    together, [COLUMNS] holds the keys of the first stored record (no key
    for an empty dataset), [DATA] has been assigned at least once when it
    is set, every assignment follows a parse, and every parse and every
    request still suspended a read; so [/list_fields] of a stored dataset
    always lists the keys of its first record, in their order. *)
Theorem state_coherent_in_every_schedule (steps : list Step)
    (file : FileRead) :
  coherent (play CSV_FILE parse steps boot)
  /\ forall records,
       DATA (world (play CSV_FILE parse steps boot)) = Some records ->
       fst (list_fields CSV_FILE parse file
              (world (play CSV_FILE parse steps boot)))
       = {| status := 200;
            body := Json (JObject [("columns", strings (columns_of records))]) |}.
Proof.
  assert (coherent (play CSV_FILE parse steps boot)) as Hs.
  { apply play_coherent. unfold coherent. cbn. repeat split; lia. }
  split; [done|]. intros records Hd.
  destruct Hs as (Hdc & _). rewrite Hd in Hdc. destruct Hdc as (Hc & _).
  open_handler.
  by rewrite (loadCSVOnce_cached parse file _ records Hd), Hc.
Qed.

End Overlap.

(** C8 (as stated) fails.  Two first requests overlap: both find [DATA]
    unassigned and both read the file, which is replaced between the two
    reads.  When the first read settles, the one-row dataset is stored and
    a load has completed; a third request is answered from it.  The second
    read then settles: the file is parsed and [DATA] assigned a second
    time, with two rows, and a fourth request of the same endpoint gets
    another row count than the third. *)
Lemma overlapping_loads_assign_twice :
  DATA (world (play Sample.CSV_FILE Scenario.parse_revision
                 (take 3 Scenario.overlap) boot))
  = Some [Sample.hospital]
  /\ DATA (world (play Sample.CSV_FILE Scenario.parse_revision
                    Scenario.overlap boot))
     = Some Sample.rows
  /\ reads (world (play Sample.CSV_FILE Scenario.parse_revision
                     Scenario.overlap boot)) = 2
  /\ parses (world (play Sample.CSV_FILE Scenario.parse_revision
                      Scenario.overlap boot)) = 2
  /\ loads (world (play Sample.CSV_FILE Scenario.parse_revision
                     Scenario.overlap boot)) = 2
  /\ sent (play Sample.CSV_FILE Scenario.parse_revision Scenario.overlap boot)
     = [Scenario.running 1; Scenario.running 1;
        Scenario.running 2; Scenario.running 2].
Proof. vm_compute. repeat split. Qed.

Lemma dataset_cached_after_load_witness :
  play Sample.CSV_FILE Sample.parse (replicate 3 (Arrive GetRoot))
    Scenario.serving
  = {| world := Sample.loaded; waiting := [];
       sent := replicate 3 (Scenario.running 2) |}.
Proof.
  destruct (dataset_cached_after_load Sample.CSV_FILE Sample.parse
              Scenario.serving Sample.rows Sample.columns)
    as (_ & _ & _ & _ & _ & _ & Hsame & _); [reflexivity ..|].
  exact (Hsame Sample.gone GetRoot 3).
Defined.

Lemma state_coherent_in_every_schedule_witness :
  fst (list_fields Sample.CSV_FILE Scenario.parse_revision Sample.gone
         (world (play Sample.CSV_FILE Scenario.parse_revision
                   Scenario.overlap boot)))
  = {| status := 200;
       body := Json (JObject [("columns", strings Sample.columns)]) |}.
Proof.
  destruct (state_coherent_in_every_schedule Sample.CSV_FILE
              Scenario.parse_revision Scenario.overlap Sample.gone)
    as [_ Hcolumns].
  apply (Hcolumns Sample.rows). reflexivity.
Defined.

(** ** Instances of the further properties *)

Lemma search_schema_mismatch_witness :
  search_facilities Sample.CSV_FILE Sample.parse Sample.gone
    Sample.everything Scenario.foreign
  = (columns_missing ["Name"; "Town"], Scenario.foreign).
Proof.
  destruct (search_schema_mismatch Sample.CSV_FILE Sample.parse Sample.gone
              Sample.everything Scenario.foreign
              [[("Name", "A"); ("Town", "B")]] ["Name"; "Town"])
    as [Hiff _]; [reflexivity ..|].
  apply Hiff. left. intros a Ha. unfold ALIAS_MAP.province in Ha.
  repeat (apply elem_of_cons in Ha as [->|Ha]);
    [..|by apply elem_of_nil in Ha];
    rewrite list_elem_of_In; vm_compute; intuition discriminate.
Defined.

Lemma status_500_when_load_throws_witness :
  status (fst (handle Sample.CSV_FILE Sample.parse Sample.gone GetListFields
                 initial)) = 500.
Proof.
  apply (status_500_when_load_throws Sample.CSV_FILE Sample.parse Sample.gone
           GetListFields initial).
  split; reflexivity.
Defined.

Lemma failed_load_is_retried_witness :
  DATA (snd (handle Sample.CSV_FILE Sample.parse (inr "Province,City") GetRoot
               (snd (serve Sample.CSV_FILE Sample.parse Scenario.two_failures
                       initial))))
  = Some Sample.rows.
Proof.
  destruct (failed_load_is_retried Sample.CSV_FILE Sample.parse
              Scenario.two_failures "Province,City" Sample.rows GetRoot)
    as (_ & _ & _ & Hdata & _); [|reflexivity|exact Hdata].
  repeat constructor.
Defined.

Lemma search_ignores_case_of_query_witness :
  search_rows Sample.rows Sample.columns "Province" "Facility Type"
    Scenario.shouting
  = search_rows Sample.rows Sample.columns "Province" "Facility Type"
      Sample.quebec_hosp.
Proof.
  apply search_ignores_case_of_query; vm_compute; reflexivity.
Defined.

Lemma cell_includes_substring_witness :
  Sample.hospital ∈ filter_by "Facility Type" "Hosp" Sample.rows.
Proof.
  apply (cell_includes_substring "Facility Type" "Hosp" Sample.hospital
           Sample.rows); [discriminate|].
  split; [left|]. by exists "", "ital".
Defined.

Lemma sseWrite_frames_one_event_witness :
  single_line (interpolate (stringify Scenario.two_lines)) = true
  /\ single_line ("event: " ++ "ping") = true.
Proof.
  destruct (sseWrite_frames_one_event "ping" Scenario.two_lines fresh)
    as (_ & Hdata & Hlines & _).
  split; [exact Hdata|]. by apply Hlines.
Defined.

Lemma sse_pings_until_close_witness :
  chunks (run ([Tick; Tick] ++ Close :: [Tick; Tick]) (sse fresh))
  = chunks (run [Tick; Tick] (sse fresh)).
Proof.
  apply (sse_pings_until_close fresh [Tick; Tick] [Tick; Tick]); reflexivity.
Defined.

Lemma sse_once_single_message_witness :
  chunks (run [Tick; Timeout; Tick] (sse_once fresh))
  = chunks fresh ++ event_chunks "message" list_tools.
Proof.
  apply (sse_once_single_message fresh [Tick; Timeout; Tick]). reflexivity.
Defined.

Lemma lazy_load_is_transparent_witness :
  fst (handle Sample.CSV_FILE Sample.parse (inr "Province,City")
         (GetSearchFacilities Sample.quebec_hosp) initial)
  = fst (handle Sample.CSV_FILE Sample.parse Sample.gone
           (GetSearchFacilities Sample.quebec_hosp) Sample.loaded).
Proof.
  rewrite (lazy_load_is_transparent Sample.CSV_FILE Sample.parse
             "Province,City" Sample.rows
             (GetSearchFacilities Sample.quebec_hosp) initial Sample.gone)
    by reflexivity.
  reflexivity.
Defined.
